(** * A shallow embedding of MecaCell's SphereMembrane (spheremembrane.hpp)

    Numbers ([float_t]) are modelled as rationals [Q]; a [Vec] is a triple of
    rationals.  The numeric helpers the header takes from [tools.h]
    ([roundN], [fuzzyEqual], [sqrt], [cbrt]) are kept as parameters of the
    development, so that every result below holds for any of their
    implementations unless a hypothesis says otherwise.  Cells are named by
    natural numbers (their pointers), connections carry an identifier (their
    address). *)

From Stdlib Require Import QArith Qabs Qround Qminmax List Bool Arith Lia ZArith.
From Stdlib Require Import Morphisms Lqa.
Import ListNotations.
Open Scope Q_scope.

(** ** Vectors *)

Record Vec := mkVec { vx : Q; vy : Q; vz : Q }.

Definition Vzero : Vec := mkVec 0 0 0.
Definition Vsub (a b : Vec) : Vec := mkVec (vx a - vx b) (vy a - vy b) (vz a - vz b).
Definition Vadd (a b : Vec) : Vec := mkVec (vx a + vx b) (vy a + vy b) (vz a + vz b).
Definition Vopp (a : Vec) : Vec := mkVec (- vx a) (- vy a) (- vz a).
Definition Vscale (k : Q) (a : Vec) : Vec := mkVec (k * vx a) (k * vy a) (k * vz a).
(** [a / k] in the sources: each component divided by [k]. *)
Definition Vdiv (a : Vec) (k : Q) : Vec := mkVec (vx a / k) (vy a / k) (vz a / k).
Definition Vdot (a b : Vec) : Q := vx a * vx b + vy a * vy b + vz a * vz b.
Definition Vcross (a b : Vec) : Vec :=
  mkVec (vy a * vz b - vz a * vy b) (vz a * vx b - vx a * vz b) (vx a * vy b - vy a * vx b).
Definition sqlength (a : Vec) : Q := Vdot a a.

(** ** Cells, cell-cell connections and the world *)

Record Cell := mkCell {
  position : Vec;
  prevposition : Vec;
  radius : Q;
  correctedRadius : Q;
  totalForce : Q
}.

(** A [CellCellConnection]: its two nodes and the spring parameters the
    update rewrites (rest length, current stiffness coefficient). *)
Record CCConnection := mkCC {
  cid : nat;
  node0 : nat;
  node1 : nat;
  restLength : Q;
  kCoef : Q
}.

(** A [CellModelConnection]: a bounce spring from a point on a mesh face to
    the cell, and an anchor spring from a free point to the cell. *)
Record ModelConnection := mkMC {
  mcid : nat;
  dirty : bool;
  bounceNode0 : Vec;
  bounceFace : nat;
  bounceRestLength : Q;
  anchorNode0 : Vec;
  anchorLength : Q;      (** anchor.getSc().length, as cached *)
  anchorDirection : Vec  (** anchor.getSc().direction, as cached *)
}.

(** [CellModelConnectionContainer]: mesh -> cell -> vector of connections. *)
Definition CellModelConnectionContainer :=
  list (nat * list (nat * list ModelConnection)).

Record World := mkWorld {
  cells : nat -> Cell;
  con : list CCConnection;              (** the CellCellConnectionContainer *)
  next_cid : nat;
  modelCons : CellModelConnectionContainer;
  modelConnections : nat -> list nat    (** each membrane's modelConnections *)
}.

(** Outcome of a call to a member function declared to return a value:
    it returns (the cell's state and the value), or control reaches the
    closing brace without a return statement ([FlowsOffEnd], with the state
    reached there), which in C++ is undefined behaviour: the call has no
    defined result and the program no defined behaviour from there on. *)
Inductive CallOutcome (A : Type) : Type :=
| Returns (st : Cell) (v : A)
| FlowsOffEnd (st : Cell).

Arguments Returns {A} st v.
Arguments FlowsOffEnd {A} st.

Section Membrane.

(** Square root used by [Vec::length] / [normalize]. *)
Variable sqrt : Q -> Q.
(** [fuzzyEqual] of [tools.h]. *)
Variable fuzzyEqual : Q -> Q -> bool.
(** [roundN] of [tools.h]. *)
Variable roundN : Q -> Q.

Definition roundNV (v : Vec) : Vec := mkVec (roundN (vx v)) (roundN (vy v)) (roundN (vz v)).

Definition pos (w : World) (c : nat) : Vec := position (cells w c).
Definition cR (w : World) (c : nat) : Q := correctedRadius (cells w c).
Definition rad (w : World) (c : nat) : Q := radius (cells w c).

(** [Connection::updateLengthDirection]: length and unit direction from node0
    towards node1. *)
Definition conLength (w : World) (co : CCConnection) : Q :=
  sqrt (sqlength (Vsub (pos w (node1 co)) (pos w (node0 co)))).
Definition conDirection (w : World) (co : CCConnection) : Vec :=
  Vdiv (Vsub (pos w (node1 co)) (pos w (node0 co))) (conLength w co).

(** The per-cell view [cccm.cellConnections] of the container. *)
Definition cellConnections (w : World) (c : nat) : list CCConnection :=
  filter (fun co => Nat.eqb (node0 co) c || Nat.eqb (node1 co) c) (con w).

(** [getConnectedCellAndMembraneDistance], one loop iteration. *)
Definition gcc_step (w : World) (c : nat) (d : Vec)
    (acc : list nat * Q) (co : CCConnection) : list nat * Q :=
  let '(closestCells, closestDist) := acc in
  let otherCell := if Nat.eqb c (node0 co) then node1 co else node0 co in
  let normal := if Nat.eqb c (node0 co) then Vopp (conDirection w co) else conDirection w co in
  let dot := Vdot normal d in
  if Qlt_le_dec dot 0 then
    let midpoint := conLength w co * rad w c / (rad w c + rad w otherCell) in
    let l := - midpoint / dot in
    if fuzzyEqual l closestDist then (closestCells ++ [otherCell], closestDist)
    else if Qlt_le_dec l closestDist then ([otherCell], l)
    else (closestCells, closestDist)
  else (closestCells, closestDist).

Definition getConnectedCellAndMembraneDistance (w : World) (c : nat) (d : Vec)
    : list nat * Q :=
  fold_left (gcc_step w c d) (cellConnections w c) ([], cR w c).


(** The candidates of the query: for each connection of [c] whose normal
    faces [d], the other cell and its distance along [d]. *)
Definition cand_of (w : World) (c : nat) (d : Vec) (co : CCConnection)
    : list (nat * Q) :=
  let otherCell := if Nat.eqb c (node0 co) then node1 co else node0 co in
  let normal := if Nat.eqb c (node0 co) then Vopp (conDirection w co) else conDirection w co in
  let dot := Vdot normal d in
  if Qlt_le_dec dot 0 then
    [(otherCell, - (conLength w co * rad w c / (rad w c + rad w otherCell)) / dot)]
  else [].

Definition candidates (w : World) (c : nat) (d : Vec) : list (nat * Q) :=
  flat_map (cand_of w c d) (cellConnections w c).

(** The loop body of the query, on a candidate. *)
Definition cand_step (acc : list nat * Q) (p : nat * Q) : list nat * Q :=
  let '(closestCells, closestDist) := acc in
  if fuzzyEqual (snd p) closestDist then (closestCells ++ [fst p], closestDist)
  else if Qlt_le_dec (snd p) closestDist then ([fst p], snd p)
  else (closestCells, closestDist).

(** [M_PI] as the double it denotes. *)
Definition M_PI : Q := 884279719003555 # 281474976710656.

(** External collaborators: adhesion of a cell towards another one, and the
    adhesion constants of the configuration. *)
Variable getAdhesionWith : nat -> nat -> Q.
Variable ADH_THRESHOLD MAX_CELL_ADH_LENGTH MIN_CELL_ADH_LENGTH : Q.

(** Modelled from the spec: [mix] of [tools.h] (not in the sources), the
    linear interpolation between [x] (at [a = 0]) and [y] (at [a = 1]). *)
Definition mix (x y a : Q) : Q := x * (1 - a) + y * a.

(** [SphereMembrane::getConnectionLength(l, adh)]. *)
Definition getConnectionLength (l adh : Q) : Q :=
  if Qlt_le_dec ADH_THRESHOLD adh
  then mix (MAX_CELL_ADH_LENGTH * l) (MIN_CELL_ADH_LENGTH * l) adh
  else l.

(** [SphereMembrane::getConnectionLength(c0, c1)]. *)
Definition getConnectionLength_cells (w : World) (c0 c1 : nat) : Q :=
  getConnectionLength (cR w c0 + cR w c1)
    (Qmin (getAdhesionWith c0 c1) (getAdhesionWith c1 c0)).

(** Modelled from the spec: [CellCellConnectionManager_vector] (not in the
    sources).  The adjacency graph is the container [con]; the per-cell
    neighbour views are read off it, so that both views stay consistent.
    [areConnected] tests for a connection between the two cells in either
    orientation; [createConnection] appends a fresh connection; the two
    [disconnect] overloads remove one given connection, or every connection
    between two cells. *)
Definition areConnected (w : World) (a b : nat) : bool :=
  existsb (fun co => (Nat.eqb (node0 co) a && Nat.eqb (node1 co) b)
                     || (Nat.eqb (node0 co) b && Nat.eqb (node1 co) a)) (con w).

Definition connectedCells (w : World) (c : nat) : list nat :=
  map (fun co => if Nat.eqb (node0 co) c then node1 co else node0 co)
      (cellConnections w c).

Definition setCon (w : World) (l : list CCConnection) : World :=
  mkWorld (cells w) l (next_cid w) (modelCons w) (modelConnections w).

Definition CCCM_createConnection (w : World) (c0 c1 : nat) (l : Q) : World :=
  mkWorld (cells w) (con w ++ [mkCC (next_cid w) c0 c1 l 1]) (S (next_cid w))
          (modelCons w) (modelConnections w).

Definition CCCM_disconnect_conn (w : World) (id : nat) : World :=
  setCon w (filter (fun co => negb (Nat.eqb (cid co) id)) (con w)).

Definition CCCM_disconnect (w : World) (c0 c1 : nat) : World :=
  setCon w (filter (fun co => negb ((Nat.eqb (node0 co) c0 && Nat.eqb (node1 co) c1)
                                    || (Nat.eqb (node0 co) c1 && Nat.eqb (node1 co) c0)))
                   (con w)).

(** [SphereMembrane::createConnection]: the rest length of the new spring.
    (Stiffness, damping and joints are not modelled.) *)
Definition createConnection (w : World) (c0 c1 : nat) : World :=
  CCCM_createConnection w c0 c1 (roundN (getConnectionLength_cells w c0 c1)).

(** Modelled from the spec: [make_ordered_cell_pair] (not in the sources)
    orders the two cells, so that both orders give the same key. *)
Definition make_ordered_cell_pair (a b : nat) : nat * nat :=
  if Nat.leb a b then (a, b) else (b, a).

Definition pair_eqb (p q : nat * nat) : bool :=
  Nat.eqb (fst p) (fst q) && Nat.eqb (snd p) (snd q).

(** The pairs [(batch[i][j], batch[i][k])], [j < k], in loop order. *)
Fixpoint pairs (l : list nat) : list (nat * nat) :=
  match l with
  | [] => []
  | x :: r => map (fun y => (x, y)) r ++ pairs r
  end.

Definition gridPairs (gridCells : list (list (list nat))) : list (nat * nat) :=
  flat_map (fun batch => flat_map pairs batch) gridCells.

(** The part of the pair test of [checkForCellCellConnections] that leads
    to the precise test: it returns [Some (dist, AB)] when the code goes on to
    compute [dir = AB / dist]. *)
Definition preciseStage (w : World) (newConnections : list (nat * nat))
    (op : nat * nat) : option (Q * Vec) :=
  let AB := roundNV (Vsub (pos w (fst op)) (pos w (snd op))) in
  let sqDistance := sqlength AB in
  let sqMaxLength := (cR w (fst op) + cR w (snd op)) ^ 2 in
  if Qle_bool sqDistance sqMaxLength then
    if negb (areConnected w (fst op) (snd op))
       && negb (existsb (pair_eqb op) newConnections)
       && negb (Nat.eqb (fst op) (snd op))
    then Some (sqrt sqDistance, AB)
    else None
  else None.

Definition pairTest (w : World) (newConnections : list (nat * nat))
    (op : nat * nat) : bool :=
  match preciseStage w newConnections op with
  | Some (dist, AB) =>
      let dir := Vdiv AB dist in
      if Qlt_le_dec dist
           (roundN (snd (getConnectedCellAndMembraneDistance w (fst op) dir))
            + roundN (snd (getConnectedCellAndMembraneDistance w (snd op) (Vopp dir))))
      then true else false
  | None => false
  end.

Definition scan_step (w : World) (nc : list (nat * nat)) (p : nat * nat)
    : list (nat * nat) :=
  let op := make_ordered_cell_pair (fst p) (snd p) in
  if pairTest w nc op then nc ++ [op] else nc.

(** [SphereMembrane::checkForCellCellConnections]; [gridCells] is what the
    space partition's [getThreadSafeGrid] returns.  The scan only reads the
    world; the connections are created after it. *)
Definition newConnectionsOf (w : World) (gridCells : list (list (list nat)))
    : list (nat * nat) :=
  fold_left (scan_step w) (gridPairs gridCells) [].

Definition checkForCellCellConnections (w : World)
    (gridCells : list (list (list nat))) : World :=
  fold_left (fun w' nc => createConnection w' (fst nc) (snd nc))
            (newConnectionsOf w gridCells) w.

(** [updateCellCellConnections]: the validity test of one connection. *)
Definition connectionInvalid (w : World) (co : CCConnection) : bool :=
  let c0 := node0 co in
  let c1 := node1 co in
  let dir := conDirection w co in
  let t0 := getConnectedCellAndMembraneDistance w c0 (roundNV dir) in
  let t1 := getConnectedCellAndMembraneDistance w c1 (roundNV (Vopp dir)) in
  let c1ClosestToC0 := existsb (Nat.eqb c1) (fst t0) in
  let c0ClosestToC1 := existsb (Nat.eqb c0) (fst t1) in
  (if Qlt_le_dec (roundN (cR w c0 + cR w c1)) (conLength w co) then true else false)
  || negb c0ClosestToC1 || negb c1ClosestToC0.

(** The parameters a still valid connection receives (contact surface as
    stiffness coefficient, adhesion-blended rest length).  The force
    computation that follows only writes the cells' force accumulators. *)
Definition refreshConnection (w : World) (co : CCConnection) : CCConnection :=
  let c0 := node0 co in
  let c1 := node1 co in
  let contactSurface :=
    roundN (M_PI * (conLength w co ^ 2 + ((rad w c0 + rad w c1) / 2) ^ 2)) in
  let newl := getConnectionLength (cR w c0 + cR w c1)
                ((getAdhesionWith c0 c1 + getAdhesionWith c1 c0) * (1 # 2)) in
  mkCC (cid co) c0 c1 (roundN newl) contactSurface.

Definition replaceCon (w : World) (co' : CCConnection) : World :=
  setCon w (map (fun co => if Nat.eqb (cid co) (cid co') then co' else co) (con w)).

(** One iteration of the scan: queue the connection, or refresh it in place. *)
Definition update_step (st : World * list nat) (co : CCConnection) : World * list nat :=
  let '(w, toErase) := st in
  if connectionInvalid w co then (w, toErase ++ [cid co])
  else (replaceCon w (refreshConnection w co), toErase).

Definition updateScan (w : World) : World * list nat :=
  fold_left update_step (con w) (w, []).

Definition updateCellCellConnections (w : World) : World :=
  let '(w', toErase) := updateScan w in
  fold_left CCCM_disconnect_conn toErase w'.

(** [disconnectAndDeleteAllConnections(c0, con)]: it receives the cell-cell
    container only. *)
Definition disconnectAndDeleteAllConnections (w : World) (c0 : nat) : World :=
  let cop := connectedCells w c0 in
  fold_left (fun w' c1 => CCCM_disconnect w' c0 c1) cop w.

(** [computePressure]. *)
Definition surface (c : Cell) : Q := 4 * M_PI * radius c * radius c.
Definition computePressure (c : Cell) : Q := roundN (totalForce c / surface c).

(** [getVolume]. *)
Definition getVolume (c : Cell) : Q :=
  (4 # 3) * M_PI * radius c * radius c * radius c.

(** Cube root ([cbrt] of the C library). *)
Variable cbrt : Q -> Q.

(** [compensateVolumeLoss] (declared [double]): its body recomputes
    [correctedRadius] and then ends with no return statement, so every call
    flows off the end.  The connection lengths are the ones
    [updateLengthDirection] caches. *)
Definition compensateVolumeLoss (w : World) (c : nat) : CallOutcome Q :=
  let cell := cells w c in
  let r := radius cell in
  let targetVol := getVolume cell in
  let volumeLoss :=
    fold_left (fun acc co =>
                 let other := if Nat.eqb c (node0 co) then node1 co else node0 co in
                 let midpoint := conLength w co * r / (r + rad w other) in
                 let h := r - midpoint in
                 acc + (M_PI * h / 6) * (3 * (r * r - midpoint * midpoint) + h * h))
              (cellConnections w c) 0 in
  FlowsOffEnd (mkCell (position cell) (prevposition cell) r
                 (roundN (cbrt ((targetVol + (13 # 10) * volumeLoss) / ((4 # 3) * M_PI))))
                 (totalForce cell)).

(** *** Cell-model connections *)

Definition MIN_MODEL_CONNECTION_SIMILARITY : Q := 8 # 10.

(** The space partition of the meshes: candidate (mesh, face) pairs around a
    position; and [projectionIntriangle] on the face's three vertices:
    whether the projection of a point lies in the triangle, and the
    projection. *)
Variable retrieve : Vec -> Q -> list (nat * nat).
Variable projectionIntriangle : nat -> nat -> Vec -> bool * Vec.
(** [getAdhesionWithModel] (the mesh's name is identified with the mesh). *)
Variable getAdhesionWithModel : nat -> nat -> Q.

Definition normalized (v : Vec) : Vec := Vdiv v (sqrt (sqlength v)).

Definition setDirty (b : bool) (mc : ModelConnection) : ModelConnection :=
  mkMC (mcid mc) b (bounceNode0 mc) (bounceFace mc) (bounceRestLength mc)
       (anchorNode0 mc) (anchorLength mc) (anchorDirection mc).

Fixpoint assoc_find {A} (k : nat) (l : list (nat * A)) : option A :=
  match l with
  | [] => None
  | (k', v) :: r => if Nat.eqb k k' then Some v else assoc_find k r
  end.

(** [map[k] = v]: overwrite the entry, or insert it when missing. *)
Definition assoc_set {A} (k : nat) (v : A) (l : list (nat * A)) : list (nat * A) :=
  match assoc_find k l with
  | Some _ => map (fun p => if Nat.eqb (fst p) k then (k, v) else p) l
  | None => l ++ [(k, v)]
  end.

Definition setConns (cmc : CellModelConnectionContainer) (m c : nat)
    (v : list ModelConnection) : CellModelConnectionContainer :=
  let cs := match assoc_find m cmc with Some cs => cs | None => [] end in
  assoc_set m (assoc_set c v cs) cmc.

(** The anchor update: keep the anchor at cell height. *)
Definition updateAnchor (cell : Cell) (currentDirection : Vec) (mc : ModelConnection)
    : ModelConnection :=
  if Qlt_le_dec 0 (anchorLength mc) then
    let crossp := Vcross currentDirection (Vcross currentDirection (anchorDirection mc)) in
    if Qlt_le_dec (radius cell * (2 # 100)) (sqlength crossp) then
      let crossp := normalized crossp in
      let projLength := Qmin (Vdot (Vsub (anchorNode0 mc) (position cell)) crossp)
                             (radius cell) in
      mkMC (mcid mc) (dirty mc) (bounceNode0 mc) (bounceFace mc) (bounceRestLength mc)
           (Vadd (position cell) (Vscale projLength crossp))
           (anchorLength mc) (anchorDirection mc)
    else mc
  else mc.

(** The loop over the existing connections of a (mesh, cell) key: the first
    one with a similar direction is updated in place ([None]: none is). *)
Fixpoint updateFirstSimilar (cell : Cell) (proj : Vec) (face : nat) (cur : Vec)
    (v : list ModelConnection) : option (list ModelConnection) :=
  match v with
  | [] => None
  | mc :: r =>
      let prevDirection := normalized (Vsub (bounceNode0 mc) (prevposition cell)) in
      if Qlt_le_dec MIN_MODEL_CONNECTION_SIMILARITY (Vdot prevDirection cur) then
        Some (updateAnchor cell cur
                (mkMC (mcid mc) false proj face (bounceRestLength mc)
                      (anchorNode0 mc) (anchorLength mc) (anchorDirection mc)) :: r)
      else option_map (cons mc) (updateFirstSimilar cell proj face cur r)
  end.

(** The state threaded through the sweep: the container, the membranes'
    [modelConnections] views, and the next free connection identifier. *)
Definition ModelState : Type :=
  (CellModelConnectionContainer * (nat -> list nat) * nat)%type.

(** Modelled from the spec: the [CellModelConnection] constructor
    (modelconnection.hpp, not in the sources) builds a connection that is not
    dirty, whose anchor point is at the cell's position (length 0). *)
Definition newModelConnection (id : nat) (cell : Cell) (proj : Vec) (face : nat) (l : Q)
    : ModelConnection :=
  mkMC id false proj face l (position cell) 0 Vzero.

Definition collision_step (w : World) (c : nat) (st : ModelState) (mf : nat * nat)
    : ModelState :=
  let '(cmc, mview, nid) := st in
  let cell := cells w c in
  let '(inside, proj) := projectionIntriangle (fst mf) (snd mf) (position cell) in
  let currentDirection := Vsub proj (position cell) in
  if inside && (if Qlt_le_dec (sqlength currentDirection) (correctedRadius cell ^ 2)
                then true else false) then
    let cur := normalized currentDirection in
    let existing := match assoc_find (fst mf) cmc with
                    | Some cs => assoc_find c cs
                    | None => None end in
    match match existing with
          | Some v => updateFirstSimilar cell proj (snd mf) cur v
          | None => None end with
    | Some v' => (setConns cmc (fst mf) c v', mview, nid)
    | None =>
        let adh := getAdhesionWithModel c (fst mf) in
        let l := mix (MAX_CELL_ADH_LENGTH * correctedRadius cell)
                     (MIN_CELL_ADH_LENGTH * correctedRadius cell) adh in
        let old := match existing with Some v => v | None => [] end in
        (setConns cmc (fst mf) c (old ++ [newModelConnection nid cell proj (snd mf) l]),
         (fun c' => if Nat.eqb c' c then mview c' ++ [nid] else mview c'),
         S nid)
    end
  else st.

(** Clean up: dirty connections, removed from the container and from their
    cell's membrane. *)
Definition removeDirty (cmc : CellModelConnectionContainer) (mview : nat -> list nat)
    : CellModelConnectionContainer * (nat -> list nat) :=
  fold_right (fun mp acc =>
    let '(rest, mv) := acc in
    let '(cs', mv') :=
      fold_right (fun cp acc' =>
        let '(cs, mv0) := acc' in
        let gone := map mcid (filter dirty (snd cp)) in
        ((fst cp, filter (fun mc => negb (dirty mc)) (snd cp)) :: cs,
         fun c' => if Nat.eqb c' (fst cp)
                   then filter (fun id => negb (existsb (Nat.eqb id) gone)) (mv0 c')
                   else mv0 c'))
        ([], mv) (snd mp) in
    ((fst mp, cs') :: rest, mv')) ([], mview) cmc.

(** Clean up: empty entries.  A mesh entry is erased when its cell map is
    empty; otherwise its empty cell entries are erased. *)
Definition cleanupEmpty (cmc : CellModelConnectionContainer) : CellModelConnectionContainer :=
  flat_map (fun mp =>
    match snd mp with
    | [] => []
    | cs => [(fst mp, filter (fun cp => match snd cp with [] => false | _ => true end) cs)]
    end) cmc.

(** [checkForCellModelCollisions] over the cells [cellsList]. *)
Definition checkForCellModelCollisions (w : World) (cellsList : list nat) : World :=
  let cmc0 := map (fun mp => (fst mp, map (fun cp => (fst cp, map (setDirty true) (snd cp)))
                                          (snd mp))) (modelCons w) in
  let '(cmc1, mview1, nid1) :=
    fold_left (fun st c => fold_left (collision_step w c) (retrieve (pos w c) (cR w c)) st)
              cellsList (cmc0, modelConnections w, next_cid w) in
  let '(cmc2, mview2) := removeDirty cmc1 mview1 in
  mkWorld (cells w) (con w) nid1 (cleanupEmpty cmc2) mview2.

(** *** Other members of the membrane *)

(** [getCurrentActualVolume]: the sphere volume of [correctedRadius] minus
    one cap per connection. *)
Definition getCurrentActualVolume (w : World) (c : nat) : Q :=
  let cell := cells w c in
  let targetVol := (4 # 3) * M_PI * correctedRadius cell * correctedRadius cell
                   * correctedRadius cell in
  let volumeLoss :=
    fold_left (fun acc co =>
                 let other := if Nat.eqb c (node0 co) then node1 co else node0 co in
                 let midpoint := conLength w co * radius cell / (radius cell + rad w other) in
                 let h := correctedRadius cell - midpoint in
                 acc + (M_PI * h / 6)
                       * (3 * (correctedRadius cell * correctedRadius cell
                               - midpoint * midpoint) + h * h))
              (cellConnections w c) 0 in
  targetVol - volumeLoss.

(** [getConnectedCell] and [getPreciseMembraneDistance]. *)
Definition getConnectedCell (w : World) (c : nat) (d : Vec) : list nat :=
  fst (getConnectedCellAndMembraneDistance w c d).
Definition getPreciseMembraneDistance (w : World) (c : nat) (d : Vec) : Q :=
  snd (getConnectedCellAndMembraneDistance w c d).

(** [setRadius] and [setVolume]. *)
Definition setRadius (cell : Cell) (r : Q) : Cell :=
  mkCell (position cell) (prevposition cell) r r (totalForce cell).
Definition setVolume (cell : Cell) (v : Q) : Cell :=
  setRadius cell (cbrt (v / (4 * M_PI / 3))).

(** [addModelConnection] and [removeModelConnection] (erase-remove) on a
    membrane's [modelConnections]. *)
Definition addModelConnection (l : list nat) (id : nat) : list nat := l ++ [id].
Definition removeModelConnection (l : list nat) (id : nat) : list nat :=
  filter (fun x => negb (Nat.eqb x id)) l.

End Membrane.

(** Modelled from the spec: [roundN] of [tools.h] (not in the sources)
    rounds to a fixed number [prec] of decimals (half up). *)
Definition roundN_dec (prec : nat) (x : Q) : Q :=
  let s := (10 ^ Z.of_nat prec)%Z in
  Qfloor (x * inject_Z s + (1 # 2)) # Z.to_pos s.

(** Integer cube root by bisection, and a cube root on rationals that is
    exact on cubes. *)
Fixpoint icbrt_aux (fuel : nat) (lo hi n : Z) : Z :=
  match fuel with
  | O => lo
  | S f =>
      if (hi - lo <=? 1)%Z then (if (hi ^ 3 <=? n)%Z then hi else lo)
      else let mid := ((lo + hi) / 2)%Z in
           if (mid ^ 3 <=? n)%Z then icbrt_aux f mid hi n else icbrt_aux f lo mid n
  end.

Definition icbrt (n : Z) : Z := icbrt_aux 200 0 (n + 1) n.

Definition cbrtQ (q : Q) : Q :=
  let q' := Qred q in
  if (Qnum q' <? 0)%Z then - (icbrt (- Qnum q') # Z.to_pos (icbrt (Zpos (Qden q'))))
  else icbrt (Qnum q') # Z.to_pos (icbrt (Zpos (Qden q'))).

(** ** Concrete instances used to run the model *)

(** A square root that is exact on squares of rationals. *)
Definition sqrtQ (q : Q) : Q :=
  let q' := Qred q in Z.sqrt (Qnum q') # Z.to_pos (Z.sqrt (Zpos (Qden q'))).

(** A tie test with absolute tolerance [eps]. *)
Definition fuzzyEqual_tol (eps : Q) (a b : Q) : bool :=
  if Qlt_le_dec (Qabs (a - b)) eps then true else false.

Definition ex : Vec := mkVec 1 0 0.

Definition mkCellAt (x r cr : Q) : Cell := mkCell (mkVec x 0 0) (mkVec x 0 0) r cr 0.

(** Cell 0 at the origin, cell 1 at [(3,0,0)], unit radii, connected. *)
Definition w_far : World :=
  mkWorld (fun c => match c with 0%nat => mkCellAt 0 1 1 | _ => mkCellAt 3 1 1 end)
          [mkCC 0 0 1 2 1] 1 [] (fun _ => []).

(** Cell 0 (corrected radius 2) connected to cell 1 at [(2,0,0)] and to
    cell 2 at [(3,0,0)]. *)
Definition w_two : World :=
  mkWorld (fun c => match c with
                    | 0%nat => mkCellAt 0 1 2
                    | 1%nat => mkCellAt 2 1 1
                    | _ => mkCellAt 3 1 1 end)
          [mkCC 0 0 1 2 1; mkCC 1 0 2 2 1] 2 [] (fun _ => []).

(** A connection with its spring parameters cleared: what the geometric
    queries read of it. *)
Definition stripCC (co : CCConnection) : CCConnection :=
  mkCC (cid co) (node0 co) (node1 co) 0 0.

(** The endpoints of the connections, in container order. *)
Definition nodePairs (w : World) : list (nat * nat) :=
  map (fun co => (node0 co, node1 co)) (con w).

(** The central graph invariant: no two connections join the same unordered
    pair of cells, and no connection joins a cell to itself. *)
Definition noDuplicateConnections (w : World) : Prop :=
  NoDup (map (fun p => make_ordered_cell_pair (fst p) (snd p)) (nodePairs w)) /\
  (forall p, In p (nodePairs w) -> fst p <> snd p).

(** What the scan proposes: distinct, ordered, unconnected pairs of two
    different cells. *)
Definition proposable (w : World) (op : nat * nat) : Prop :=
  areConnected w (fst op) (snd op) = false /\ fst op <> snd op /\
  make_ordered_cell_pair (fst op) (snd op) = op.

(** Two unconnected cells of radius 1: cell 0 at the origin, cell 1 at
    [(x,0,0)]. *)
Definition w_dist (x : Q) : World :=
  mkWorld (fun c => match c with 0%nat => mkCellAt 0 1 1 | _ => mkCellAt x 1 1 end)
          [] 0 [] (fun _ => []).

(** An isolated cell of radius 1/3. *)
Definition w_third : World :=
  mkWorld (fun _ => mkCellAt 0 (1 # 3) (1 # 3)) [] 0 [] (fun _ => []).

(** A cell-model connection (identifier 7) on face 0 of mesh 0. *)
Definition mc7 : ModelConnection := mkMC 7 false Vzero 0 1 Vzero 0 Vzero.

(** Cell 0 connected to cell 1 and, by [mc7], to mesh 0. *)
Definition w_model : World :=
  mkWorld (fun c => match c with 0%nat => mkCellAt 0 1 1 | _ => mkCellAt (3 # 2) 1 1 end)
          [mkCC 0 0 1 2 1] 1 [(0%nat, [(0%nat, [mc7])])]
          (fun c => match c with 0%nat => [7%nat] | _ => [] end).

(** Cell 0 alone with [mc7]. *)
Definition w_mesh : World :=
  mkWorld (fun _ => mkCellAt 0 1 1) [] 0 [(0%nat, [(0%nat, [mc7])])]
          (fun c => match c with 0%nat => [7%nat] | _ => [] end).

(** The identifiers of the connections the container holds for cell [c]
    that satisfy [p]. *)
Definition connIdsOf (p : ModelConnection -> bool) (cmc : CellModelConnectionContainer)
    (c : nat) : list nat :=
  flat_map (fun mp => flat_map (fun cp => if Nat.eqb (fst cp) c
                                          then map mcid (filter p (snd cp)) else [])
                               (snd mp)) cmc.

(** ** The nearest-neighbour query *)

Section Query.

Variable sqrt : Q -> Q.
Variable fuzzyEqual : Q -> Q -> bool.

Lemma gcc_step_cand w c d acc co :
  gcc_step sqrt fuzzyEqual w c d acc co
  = fold_left (cand_step fuzzyEqual) (cand_of sqrt w c d co) acc.
Proof.
  destruct acc as [cells best]. unfold gcc_step, cand_of.
  destruct (Qlt_le_dec _ 0); reflexivity.
Qed.

Lemma gccmd_fold_candidates w c d :
  getConnectedCellAndMembraneDistance sqrt fuzzyEqual w c d
  = fold_left (cand_step fuzzyEqual) (candidates sqrt w c d) ([], cR w c).
Proof.
  unfold getConnectedCellAndMembraneDistance, candidates.
  generalize (@nil nat, cR w c).
  induction (cellConnections w c) as [|co l IH]; intros acc; [reflexivity|].
  simpl. rewrite fold_left_app, <- gcc_step_cand. apply IH.
Qed.

(** Along the scan the best distance never grows above a bound [K] and every
    selected cell has an entry that is within [K] or within tolerance of a
    value below [K]. *)
Lemma cand_fold_bound (K : Q) (good : nat -> Prop) :
  forall ps cells best,
  best <= K -> (forall o, In o cells -> good o) ->
  (forall o l, In (o, l) ps ->
     l <= K \/ (exists x, x <= K /\ fuzzyEqual l x = true) -> good o) ->
  snd (fold_left (cand_step fuzzyEqual) ps (cells, best)) <= K /\
  (forall o, In o (fst (fold_left (cand_step fuzzyEqual) ps (cells, best))) -> good o).
Proof.
  induction ps as [|[o l] ps IH]; intros cells best Hb Hc Hp; simpl; [auto|].
  unfold cand_step at 2; simpl.
  destruct (fuzzyEqual l best) eqn:Hf; [|destruct (Qlt_le_dec l best)].
  - apply IH; auto.
    + intros o' Ho'. apply in_app_or in Ho'. destruct Ho' as [Ho'|[<-|[]]]; auto.
      apply (Hp o l); [left; reflexivity|right; exists best; auto].
    + intros o' l' H. apply Hp. right. exact H.
  - apply IH.
    + apply Qlt_le_weak. apply Qlt_le_trans with best; auto.
    + intros o' [<-|[]]. apply (Hp o l); [left; reflexivity|left].
      apply Qlt_le_weak. apply Qlt_le_trans with best; auto.
    + intros o' l' H. apply Hp. right. exact H.
  - apply IH; auto. intros o' l' H. apply Hp. right. exact H.
Qed.

Lemma fold_Qmin_le : forall xs b, fold_left Qmin xs b <= b.
Proof.
  induction xs as [|x xs IH]; intros b; simpl; [apply Qle_refl|].
  eapply Qle_trans; [apply IH|apply Q.le_min_l].
Qed.

(** With an exact tie test the scan selects the candidates at the minimum. *)
Lemma cand_fold_exact
  (Hex : forall a b, fuzzyEqual a b = Qeq_bool a b) :
  forall ps cells best,
  let m := fold_left Qmin (map snd ps) best in
  fold_left (cand_step fuzzyEqual) ps (cells, best) =
  ((if Qeq_bool m best then cells else []) ++
     map fst (filter (fun p => Qeq_bool (snd p) m) ps), m).
Proof.
  induction ps as [|[o l] ps IH]; intros cells best m; subst m; simpl.
  - rewrite Qeq_bool_refl, app_nil_r. reflexivity.
  - rewrite Hex.
    pose proof (fold_Qmin_le (map snd ps)) as Hle.
    destruct (Qeq_bool l best) eqn:Heq; [|destruct (Qlt_le_dec l best) as [Hlt|Hge]].
    + apply Qeq_bool_iff in Heq.
      assert (Hm : Qmin best l = best).
      { unfold Qmin, GenericMinMax.gmin. rewrite (proj1 (Qeq_alt best l)); auto.
        symmetry. exact Heq. }
      rewrite Hm, IH.
      set (m := fold_left Qmin (map snd ps) best).
      destruct (Qeq_bool m best) eqn:Hmb.
      * apply Qeq_bool_iff in Hmb.
        assert (H : Qeq_bool l m = true)
          by (apply Qeq_bool_iff; rewrite Hmb, Heq; reflexivity).
        rewrite H; simpl. rewrite <- app_assoc. reflexivity.
      * assert (H : Qeq_bool l m = false).
        { apply not_true_iff_false. intros H. apply Qeq_bool_iff in H.
          apply not_true_iff_false in Hmb. apply Hmb. apply Qeq_bool_iff.
          rewrite <- H. exact Heq. }
        rewrite H. reflexivity.
    + assert (Hm : Qmin best l = l).
      { unfold Qmin, GenericMinMax.gmin. rewrite (proj1 (Qgt_alt best l)); auto. }
      rewrite Hm, IH.
      set (m := fold_left Qmin (map snd ps) l).
      assert (Hml : m <= l) by apply Hle.
      assert (Hmb : Qeq_bool m best = false).
      { apply not_true_iff_false. intros H. apply Qeq_bool_iff in H.
        apply (Qlt_irrefl best). rewrite <- H at 1. apply Qle_lt_trans with l; auto. }
      rewrite Hmb, (Qeq_bool_comm l m). simpl.
      destruct (Qeq_bool m l); reflexivity.
    + assert (Hlb : best < l).
      { apply Qle_lteq in Hge. destruct Hge as [Hge|Hge]; auto.
        apply Qeq_bool_iff in Hge. rewrite Qeq_bool_comm in Hge. congruence. }
      assert (Hm : Qmin best l = best).
      { unfold Qmin, GenericMinMax.gmin. rewrite (proj1 (Qlt_alt best l)); auto. }
      rewrite Hm, IH.
      set (m := fold_left Qmin (map snd ps) best).
      assert (Hmb : m <= best) by apply Hle.
      assert (H : Qeq_bool l m = false).
      { apply not_true_iff_false. intros H. apply Qeq_bool_iff in H.
        apply (Qlt_irrefl best). apply Qlt_le_trans with l; auto. rewrite H. exact Hmb. }
      rewrite H. reflexivity.
Qed.

End Query.

(** ** C10, C3 *)

Section QueryClaims.

Variable sqrt : Q -> Q.
Variable fuzzyEqual : Q -> Q -> bool.

(** C10: the distance returned by [getConnectedCellAndMembraneDistance]
    never exceeds the cell's [correctedRadius], and a connected neighbour
    whose candidate distance is strictly greater than [correctedRadius]
    and not within the tie tolerance of any value up to it is never in the
    returned set, even when it is the only neighbour in that direction. *)
Theorem getConnectedCellAndMembraneDistance_within_correctedRadius
  (w : World) (c : nat) (d : Vec) (o : nat)
  (Hfar : forall l, In (o, l) (candidates sqrt w c d) ->
          cR w c < l /\ (forall x, x <= cR w c -> fuzzyEqual l x = false)) :
  snd (getConnectedCellAndMembraneDistance sqrt fuzzyEqual w c d) <= cR w c /\
  ~ In o (fst (getConnectedCellAndMembraneDistance sqrt fuzzyEqual w c d)).
Proof.
  rewrite gccmd_fold_candidates.
  set (ps := candidates sqrt w c d) in *.
  destruct (cand_fold_bound fuzzyEqual (cR w c)
              (fun o' => exists l, In (o', l) ps /\
                 (l <= cR w c \/ exists x, x <= cR w c /\ fuzzyEqual l x = true))
              ps [] (cR w c)) as [Hb Hg].
  - apply Qle_refl.
  - intros o' [].
  - intros o' l Hin Hl. exists l. auto.
  - split; [exact Hb|].
    intros Hin. destruct (Hg o Hin) as [l [Hl [Hle|[x [Hx Hf]]]]];
      destruct (Hfar l Hl) as [Hlt Hno].
    + apply (Qlt_irrefl l). apply Qle_lt_trans with (cR w c); auto.
    + rewrite (Hno x Hx) in Hf. discriminate.
Qed.

(** C3 (amended): [getConnectedCellAndMembraneDistance(d)] is a scan of the
    candidates (connected neighbours whose normal has a negative dot product
    with [d], at distance [-(length*radius/(radius+otherRadius))/dot]) that
    starts from the best distance [correctedRadius] and the empty set: a
    candidate [fuzzyEqual] to the current best is appended, one strictly below
    it replaces set and best.  Hence the distance never exceeds
    [correctedRadius]; no candidates give the empty set and
    [correctedRadius]; and with an exact tie test the result is the minimum
    [m] of [correctedRadius] and the candidate distances together with exactly
    the candidates at distance [m]. *)
Theorem getConnectedCellAndMembraneDistance_scan (w : World) (c : nat) (d : Vec) :
  getConnectedCellAndMembraneDistance sqrt fuzzyEqual w c d
    = fold_left (cand_step fuzzyEqual) (candidates sqrt w c d) ([], cR w c) /\
  snd (getConnectedCellAndMembraneDistance sqrt fuzzyEqual w c d) <= cR w c /\
  (candidates sqrt w c d = [] ->
   getConnectedCellAndMembraneDistance sqrt fuzzyEqual w c d = ([], cR w c)) /\
  ((forall a b, fuzzyEqual a b = Qeq_bool a b) ->
   let m := fold_left Qmin (map snd (candidates sqrt w c d)) (cR w c) in
   getConnectedCellAndMembraneDistance sqrt fuzzyEqual w c d
   = (map fst (filter (fun p => Qeq_bool (snd p) m) (candidates sqrt w c d)), m)).
Proof.
  rewrite gccmd_fold_candidates. split; [reflexivity|]. split; [|split].
  - apply (cand_fold_bound fuzzyEqual (cR w c) (fun _ => True)); auto.
    apply Qle_refl.
  - intros H. rewrite H. reflexivity.
  - intros Hex m. rewrite (cand_fold_exact fuzzyEqual Hex).
    fold m. destruct (Qeq_bool m (cR w c)); reflexivity.
Qed.

End QueryClaims.

(** ** Witnesses and counterexamples for C10, C3 *)

Lemma fuzzyEqual_tol_beyond (e a K x : Q) :
  e <= a - K -> x <= K -> fuzzyEqual_tol e a x = false.
Proof.
  intros H Hx. unfold fuzzyEqual_tol.
  destruct (Qlt_le_dec _ _) as [Hlt|]; [|reflexivity]. exfalso.
  pose proof (Qle_Qabs (a - x)). lra.
Qed.

Lemma getConnectedCellAndMembraneDistance_within_correctedRadius_witness :
  snd (getConnectedCellAndMembraneDistance sqrtQ (fuzzyEqual_tol (1 # 1000000)) w_far 0 ex)
    <= cR w_far 0 /\
  ~ In 1%nat (fst (getConnectedCellAndMembraneDistance sqrtQ (fuzzyEqual_tol (1 # 1000000))
                     w_far 0 ex)).
Proof.
  apply getConnectedCellAndMembraneDistance_within_correctedRadius.
  intros l Hl. vm_compute in Hl. destruct Hl as [Hl|[]]. injection Hl as <-.
  split; [vm_compute; reflexivity|].
  intros x Hx. apply (fuzzyEqual_tol_beyond _ _ 1); [vm_compute; discriminate|exact Hx].
Defined.

Lemma getConnectedCellAndMembraneDistance_scan_witness :
  fst (getConnectedCellAndMembraneDistance sqrtQ Qeq_bool w_two 0 ex) = [1%nat].
Proof.
  destruct (getConnectedCellAndMembraneDistance_scan sqrtQ Qeq_bool w_two 0 ex)
    as [_ [_ [_ H]]].
  rewrite (H (fun _ _ => eq_refl)). vm_compute. reflexivity.
Defined.

(** C3 as stated fails: cell 0 of [w_far] has exactly one candidate along
    [(1,0,0)] (cell 1, at distance 3/2 > correctedRadius = 1), yet the
    returned set is empty.  Any tie tolerance below 1/2 gives the same. *)
Lemma getConnectedCellAndMembraneDistance_only_candidate_dropped :
  map fst (candidates sqrtQ w_far 0 ex) = [1%nat] /\
  fst (getConnectedCellAndMembraneDistance sqrtQ (fuzzyEqual_tol (1 # 1000000)) w_far 0 ex)
    = [].
Proof. split; vm_compute; reflexivity. Qed.

(** ** C1: the update of cell-cell connections *)

Section UpdateClaims.

Variable sqrt : Q -> Q.
Variable fuzzyEqual : Q -> Q -> bool.
Variable roundN : Q -> Q.
Variable getAdhesionWith : nat -> nat -> Q.
Variable ADH_THRESHOLD MAX_CELL_ADH_LENGTH MIN_CELL_ADH_LENGTH : Q.

Local Abbreviation invalid := (connectionInvalid sqrt fuzzyEqual roundN).
Local Abbreviation refresh := (refreshConnection sqrt roundN getAdhesionWith ADH_THRESHOLD
                 MAX_CELL_ADH_LENGTH MIN_CELL_ADH_LENGTH).
Local Abbreviation ustep := (update_step sqrt fuzzyEqual roundN getAdhesionWith ADH_THRESHOLD
               MAX_CELL_ADH_LENGTH MIN_CELL_ADH_LENGTH).

Lemma gccmd_strip w c d :
  getConnectedCellAndMembraneDistance sqrt fuzzyEqual w c d
  = fold_left (gcc_step sqrt fuzzyEqual w c d)
      (filter (fun co => Nat.eqb (node0 co) c || Nat.eqb (node1 co) c)
              (map stripCC (con w))) ([], cR w c).
Proof.
  unfold getConnectedCellAndMembraneDistance, cellConnections.
  generalize (@nil nat, cR w c).
  induction (con w) as [|co l IH]; intros acc; [reflexivity|].
  simpl. destruct (_ || _); simpl; apply IH.
Qed.

(** The validity test reads the cells and the nodes of the connections only. *)
Lemma connectionInvalid_skel w w' co :
  cells w = cells w' -> map stripCC (con w) = map stripCC (con w') ->
  invalid w co = invalid w' co.
Proof.
  intros Hc Hs. unfold connectionInvalid.
  rewrite !gccmd_strip, Hs.
  destruct w as [cw lw nw mw vw], w' as [cw' lw' nw' mw' vw']; simpl in *.
  subst cw'. reflexivity.
Qed.

Lemma refresh_cells w w' co :
  cells w = cells w' -> refresh w co = refresh w' co.
Proof.
  intros Hc. destruct w as [cw lw nw mw vw], w' as [cw' lw' nw' mw' vw'];
    simpl in *; subst cw'. reflexivity.
Qed.

Lemma NoDup_cid_inj : forall (l : list CCConnection) x y,
  NoDup (map cid l) -> In x l -> In y l -> cid x = cid y -> x = y.
Proof.
  induction l as [|a l IH]; intros x y Hnd Hx Hy Hxy; [destruct Hx|].
  simpl in Hnd. inversion Hnd as [|? ? Hna Hnd']; subst.
  destruct Hx as [<-|Hx], Hy as [<-|Hy]; auto.
  - exfalso. apply Hna. rewrite Hxy. apply in_map. exact Hy.
  - exfalso. apply Hna. rewrite <- Hxy. apply in_map. exact Hx.
Qed.

Lemma replace_unique (a b : list CCConnection) co y :
  NoDup (map cid (a ++ co :: b)) ->
  map (fun x => if Nat.eqb (cid x) (cid co) then y else x) (a ++ co :: b)
  = a ++ y :: b.
Proof.
  intros Hnd. rewrite map_app in *. simpl in *.
  apply NoDup_remove_2 in Hnd. rewrite Nat.eqb_refl.
  f_equal; [|f_equal]; rewrite <- (map_id a) at 2 || rewrite <- (map_id b) at 2;
    apply map_ext_in; intros x Hx;
    destruct (Nat.eqb (cid x) (cid co)) eqn:E; auto;
    apply Nat.eqb_eq in E; exfalso; apply Hnd; rewrite <- E;
    apply in_or_app; [left|right]; apply in_map; exact Hx.
Qed.


Lemma existsb_eqb_false x l : existsb (Nat.eqb x) l = false <-> ~ In x l.
Proof.
  split.
  - intros H Hin. assert (existsb (Nat.eqb x) l = true) by
      (apply existsb_exists; exists x; split; [exact Hin|apply Nat.eqb_refl]).
    congruence.
  - intros H. apply not_true_iff_false. intros Hx. apply existsb_exists in Hx.
    destruct Hx as [y [Hy E]]. apply Nat.eqb_eq in E. subst. contradiction.
Qed.

Lemma filter_filter_and {A} (p q : A -> bool) l :
  filter p (filter q l) = filter (fun x => q x && p x) l.
Proof.
  induction l as [|a l IH]; simpl; [reflexivity|].
  destruct (q a); simpl; [destruct (p a); simpl; rewrite IH|rewrite IH]; reflexivity.
Qed.

Lemma disconnect_all : forall ids w,
  con (fold_left CCCM_disconnect_conn ids w)
  = filter (fun x => negb (existsb (Nat.eqb (cid x)) ids)) (con w).
Proof.
  induction ids as [|i ids IH]; intros w; simpl.
  - rewrite <- (filter_true (con w)) at 1. apply filter_ext. reflexivity.
  - rewrite IH. unfold CCCM_disconnect_conn, setCon; simpl.
    rewrite filter_filter_and. apply filter_ext. intros x.
    rewrite negb_orb. reflexivity.
Qed.

Lemma update_scan_prefix w (Hnd : NoDup (map cid (con w))) :
  let f := fun co => if invalid w co then co else refresh w co in
  forall rest p, con w = p ++ rest ->
  fold_left ustep rest (setCon w (map f p ++ rest), map cid (filter (invalid w) p))
  = (setCon w (map f (con w)), map cid (filter (invalid w) (con w))).
Proof.
  intros f. induction rest as [|co rest IH]; intros p Hp.
  - rewrite app_nil_r in *. subst p. reflexivity.
  - simpl.
    assert (Hs : forall l, map stripCC (map f l) = map stripCC l).
    { intros l. rewrite map_map. apply map_ext. intros x. unfold f.
      destruct (invalid w x); reflexivity. }
    rewrite (connectionInvalid_skel (setCon w (map f p ++ co :: rest)) w co);
      [|reflexivity|simpl; rewrite map_app, Hs, Hp, map_app; reflexivity].
    assert (Hp' : con w = (p ++ [co]) ++ rest) by (rewrite <- app_assoc; exact Hp).
    destruct (invalid w co) eqn:Hi.
    + assert (Hf : f co = co) by (unfold f; rewrite Hi; reflexivity).
      rewrite <- (IH (p ++ [co]) Hp').
      rewrite map_app, <- app_assoc, filter_app, map_app. simpl. rewrite Hf, Hi.
      reflexivity.
    + assert (Hf : f co = refresh w co) by (unfold f; rewrite Hi; reflexivity).
      rewrite <- (IH (p ++ [co]) Hp').
      rewrite map_app, <- app_assoc, filter_app, map_app. simpl. rewrite Hf, Hi, app_nil_r.
      rewrite (refresh_cells (setCon w (map f p ++ co :: rest)) w co eq_refl).
      unfold replaceCon, setCon; simpl.
      rewrite replace_unique; [reflexivity|].
      replace (map cid (map f p ++ co :: rest)) with (map cid (con w)); [exact Hnd|].
      rewrite Hp, !map_app, map_map. simpl. f_equal.
      apply map_ext. intros x. unfold f. destruct (invalid w x); reflexivity.
Qed.


Lemma connectionInvalid_iff w co :
  invalid w co = true <->
  roundN (cR w (node0 co) + cR w (node1 co)) < conLength sqrt w co
  \/ ~ In (node0 co) (fst (getConnectedCellAndMembraneDistance sqrt fuzzyEqual w (node1 co)
                           (roundNV roundN (Vopp (conDirection sqrt w co)))))
  \/ ~ In (node1 co) (fst (getConnectedCellAndMembraneDistance sqrt fuzzyEqual w (node0 co)
                           (roundNV roundN (conDirection sqrt w co)))).
Proof.
  unfold connectionInvalid.
  rewrite !orb_true_iff, !negb_true_iff, !existsb_eqb_false.
  destruct (Qlt_le_dec _ _) as [Hlt|Hle].
  - assert (true = true) by reflexivity. tauto.
  - assert (~ false = true) by discriminate. pose proof (Qle_not_lt _ _ Hle). tauto.
Qed.

Lemma queued_iff_invalid w (Hnd : NoDup (map cid (con w))) x :
  In x (con w) ->
  existsb (Nat.eqb (cid x)) (map cid (filter (invalid w) (con w))) = invalid w x.
Proof.
  intros Hx. destruct (invalid w x) eqn:Hi.
  - apply existsb_exists. exists (cid x). split; [|apply Nat.eqb_refl].
    apply in_map. apply filter_In. auto.
  - apply existsb_eqb_false. intros Hin. apply in_map_iff in Hin.
    destruct Hin as [y [Hy Hin]]. apply filter_In in Hin. destruct Hin as [Hyin Hyi].
    rewrite (NoDup_cid_inj (con w) y x Hnd Hyin Hx Hy) in Hyi. congruence.
Qed.

(** C1: in [updateCellCellConnections], every connection is queued for
    removal exactly when its length exceeds the rounded sum of the two
    corrected radii, or either endpoint is missing from the other's set of
    nearest connected neighbours along the connection axis.  All decisions
    are taken on the state before the scan (the scan itself only refreshes
    the parameters of the connections it keeps), and the queued connections
    are removed after it: the resulting container is exactly the refreshed
    valid connections.  In particular a one-sided nearest-neighbour failure
    always leads to removal. *)
Theorem updateCellCellConnections_removal (w : World)
  (Hnd : NoDup (map cid (con w))) :
  (forall co, invalid w co = true <->
     roundN (cR w (node0 co) + cR w (node1 co)) < conLength sqrt w co
     \/ ~ In (node0 co) (fst (getConnectedCellAndMembraneDistance sqrt fuzzyEqual w (node1 co)
                              (roundNV roundN (Vopp (conDirection sqrt w co)))))
     \/ ~ In (node1 co) (fst (getConnectedCellAndMembraneDistance sqrt fuzzyEqual w (node0 co)
                              (roundNV roundN (conDirection sqrt w co))))) /\
  snd (updateScan sqrt fuzzyEqual roundN getAdhesionWith ADH_THRESHOLD
         MAX_CELL_ADH_LENGTH MIN_CELL_ADH_LENGTH w)
    = map cid (filter (invalid w) (con w)) /\
  con (updateCellCellConnections sqrt fuzzyEqual roundN getAdhesionWith ADH_THRESHOLD
         MAX_CELL_ADH_LENGTH MIN_CELL_ADH_LENGTH w)
    = map (refresh w) (filter (fun co => negb (invalid w co)) (con w)) /\
  (forall co, In co (con w) ->
     In (node1 co) (fst (getConnectedCellAndMembraneDistance sqrt fuzzyEqual w (node0 co)
                          (roundNV roundN (conDirection sqrt w co)))) ->
     ~ In (node0 co) (fst (getConnectedCellAndMembraneDistance sqrt fuzzyEqual w (node1 co)
                            (roundNV roundN (Vopp (conDirection sqrt w co))))) ->
     In (cid co) (snd (updateScan sqrt fuzzyEqual roundN getAdhesionWith ADH_THRESHOLD
                         MAX_CELL_ADH_LENGTH MIN_CELL_ADH_LENGTH w)) /\
     ~ In (cid co) (map cid (con (updateCellCellConnections sqrt fuzzyEqual roundN
                       getAdhesionWith ADH_THRESHOLD MAX_CELL_ADH_LENGTH
                       MIN_CELL_ADH_LENGTH w)))).
Proof.
  pose proof (update_scan_prefix w Hnd (con w) [] eq_refl) as Hscan.
  assert (Hw : setCon w (con w) = w) by (destruct w; reflexivity).
  simpl in Hscan. rewrite Hw in Hscan.
  set (f := fun co => if invalid w co then co else refresh w co) in Hscan.
  assert (Hus : updateScan sqrt fuzzyEqual roundN getAdhesionWith ADH_THRESHOLD
                  MAX_CELL_ADH_LENGTH MIN_CELL_ADH_LENGTH w
                = (setCon w (map f (con w)), map cid (filter (invalid w) (con w))))
    by exact Hscan.
  assert (Hfin : con (updateCellCellConnections sqrt fuzzyEqual roundN getAdhesionWith
                        ADH_THRESHOLD MAX_CELL_ADH_LENGTH MIN_CELL_ADH_LENGTH w)
                 = map (refresh w) (filter (fun co => negb (invalid w co)) (con w))).
  { unfold updateCellCellConnections. rewrite Hus, disconnect_all. simpl.
    assert (Hgen : forall l, (forall x, In x l -> In x (con w)) ->
      filter (fun x => negb (existsb (Nat.eqb (cid x))
                                     (map cid (filter (invalid w) (con w)))))
             (map f l)
      = map (refresh w) (filter (fun co => negb (invalid w co)) l)).
    { induction l as [|a l IH]; intros Hsub; [reflexivity|]. simpl.
      assert (Ha : In a (con w)) by (apply Hsub; left; reflexivity).
      assert (Hl : forall x, In x l -> In x (con w))
        by (intros x Hx; apply Hsub; right; exact Hx).
      assert (Hfa : f a = if invalid w a then a else refresh w a) by reflexivity.
      rewrite Hfa. destruct (invalid w a) eqn:Hi; simpl.
      - rewrite (queued_iff_invalid w Hnd a Ha), Hi. simpl. apply IH. exact Hl.
      - change (cid (refresh w a)) with (cid a).
        rewrite (queued_iff_invalid w Hnd a Ha), Hi. simpl. f_equal. apply IH. exact Hl. }
    apply Hgen. auto. }
  split; [apply connectionInvalid_iff|]. split; [rewrite Hus; reflexivity|].
  split; [exact Hfin|].
  intros co Hin H1 H0.
  assert (Hi : invalid w co = true) by (apply connectionInvalid_iff; right; left; exact H0).
  split.
  - rewrite Hus. simpl. apply in_map. apply filter_In. auto.
  - rewrite Hfin, map_map. intros Hc. apply in_map_iff in Hc.
    destruct Hc as [y [Hy Hyin]]. apply filter_In in Hyin. destruct Hyin as [Hyin Hyv].
    change (cid (refresh w y)) with (cid y) in Hy.
    rewrite (NoDup_cid_inj (con w) y co Hnd Hyin Hin Hy), Hi in Hyv. discriminate.
Qed.

End UpdateClaims.

(** ** Witness for C1 *)

Lemma updateCellCellConnections_removal_witness :
  NoDup (map cid (con w_two)) /\
  con (updateCellCellConnections sqrtQ Qeq_bool (fun q => q) (fun _ _ => 0) 1 1 1 w_two)
  = map (refreshConnection sqrtQ (fun q => q) (fun _ _ => 0) 1 1 1 w_two)
      (filter (fun co => negb (connectionInvalid sqrtQ Qeq_bool (fun q => q) w_two co))
              (con w_two)).
Proof.
  assert (H : NoDup (map cid (con w_two))) by (simpl; repeat constructor; simpl; intuition discriminate).
  split; [exact H|].
  exact (proj1 (proj2 (proj2 (updateCellCellConnections_removal sqrtQ Qeq_bool (fun q => q)
           (fun _ _ => 0) 1 1 1 w_two H)))).
Defined.

(** ** C2: no duplicate connections *)

Section CheckClaims.

Variable sqrt : Q -> Q.
Variable fuzzyEqual : Q -> Q -> bool.
Variable roundN : Q -> Q.
Variable getAdhesionWith : nat -> nat -> Q.
Variable ADH_THRESHOLD MAX_CELL_ADH_LENGTH MIN_CELL_ADH_LENGTH : Q.

Lemma make_ordered_cell_pair_idem a b :
  make_ordered_cell_pair (fst (make_ordered_cell_pair a b))
                         (snd (make_ordered_cell_pair a b))
  = make_ordered_cell_pair a b.
Proof.
  unfold make_ordered_cell_pair.
  destruct (Nat.leb a b) eqn:E; simpl; [rewrite E; reflexivity|].
  apply Nat.leb_gt in E. destruct (Nat.leb b a) eqn:E'; [reflexivity|].
  apply Nat.leb_gt in E'. lia.
Qed.

Lemma pair_eqb_true p q : pair_eqb p q = true <-> p = q.
Proof.
  destruct p as [a b], q as [c d]. unfold pair_eqb. simpl.
  rewrite andb_true_iff, !Nat.eqb_eq. split; [intros [-> ->]; reflexivity|].
  intros H. injection H. auto.
Qed.

Lemma pairTest_true w nc op :
  pairTest sqrt fuzzyEqual roundN w nc op = true ->
  areConnected w (fst op) (snd op) = false /\ ~ In op nc /\ fst op <> snd op.
Proof.
  unfold pairTest, preciseStage.
  destruct (Qle_bool _ _); [|discriminate].
  destruct (areConnected w (fst op) (snd op)); [discriminate|].
  destruct (existsb (pair_eqb op) nc) eqn:Hex; [discriminate|].
  destruct (Nat.eqb (fst op) (snd op)) eqn:Hself; [discriminate|].
  intros _. split; [reflexivity|split].
  - intros Hin. assert (existsb (pair_eqb op) nc = true); [|congruence].
    apply existsb_exists. exists op. split; [exact Hin|]. apply pair_eqb_true. reflexivity.
  - apply Nat.eqb_neq. exact Hself.
Qed.

Lemma scan_invariant w : forall ps nc,
  NoDup nc -> (forall op, In op nc -> proposable w op) ->
  NoDup (fold_left (scan_step sqrt fuzzyEqual roundN w) ps nc) /\
  (forall op, In op (fold_left (scan_step sqrt fuzzyEqual roundN w) ps nc) -> proposable w op).
Proof.
  induction ps as [|p ps IH]; intros nc Hnd Hp; simpl; [auto|].
  apply IH; unfold scan_step;
    destruct (pairTest sqrt fuzzyEqual roundN w nc _) eqn:Ht; auto;
    apply pairTest_true in Ht; destruct Ht as [Hc [Hn Hs]].
  - apply NoDup_app; auto.
    + repeat constructor. intros [].
    + intros a Ha [<-|[]]. contradiction.
  - intros op Hop. apply in_app_or in Hop. destruct Hop as [Hop|[<-|[]]]; auto.
    split; [exact Hc|split; [exact Hs|apply make_ordered_cell_pair_idem]].
Qed.

Lemma create_nodePairs : forall nc w,
  nodePairs (fold_left (fun w' p => createConnection roundN getAdhesionWith ADH_THRESHOLD
                                      MAX_CELL_ADH_LENGTH MIN_CELL_ADH_LENGTH w' (fst p) (snd p))
                       nc w)
  = nodePairs w ++ nc.
Proof.
  induction nc as [|p nc IH]; intros w; simpl; [rewrite app_nil_r; reflexivity|].
  rewrite IH. unfold nodePairs, createConnection, CCCM_createConnection. cbn [con].
  rewrite map_app, <- app_assoc. destruct p. reflexivity.
Qed.

Lemma connected_of_nodePairs w x y :
  In (x, y) (nodePairs w) ->
  areConnected w (fst (make_ordered_cell_pair x y)) (snd (make_ordered_cell_pair x y)) = true.
Proof.
  intros H. unfold nodePairs in H. apply in_map_iff in H.
  destruct H as [co [Hco Hin]]. injection Hco as <- <-.
  apply existsb_exists. exists co. split; [exact Hin|].
  unfold make_ordered_cell_pair. destruct (Nat.leb _ _); simpl;
    rewrite !Nat.eqb_refl; simpl; [reflexivity|apply orb_true_r].
Qed.

Lemma checkForCellCellConnections_preserves w g :
  noDuplicateConnections w ->
  noDuplicateConnections
    (checkForCellCellConnections sqrt fuzzyEqual roundN getAdhesionWith ADH_THRESHOLD
       MAX_CELL_ADH_LENGTH MIN_CELL_ADH_LENGTH w g).
Proof.
  intros [Hnd Hself].
  destruct (scan_invariant w (gridPairs g) [] (NoDup_nil _) (fun op H => match H with end))
    as [Hnc Hp].
  unfold checkForCellCellConnections. fold (newConnectionsOf sqrt fuzzyEqual roundN w g) in *.
  set (nc := newConnectionsOf sqrt fuzzyEqual roundN w g) in *.
  unfold noDuplicateConnections. rewrite create_nodePairs, map_app.
  replace (map (fun p => make_ordered_cell_pair (fst p) (snd p)) nc) with nc.
  - split.
    + apply NoDup_app; auto.
      intros a Ha Hin. apply in_map_iff in Ha. destruct Ha as [[x y] [Hxy Hxyin]].
      simpl in Hxy. destruct (Hp a Hin) as [Hc _].
      apply connected_of_nodePairs in Hxyin. rewrite Hxy in Hxyin. congruence.
    + intros p Hin. apply in_app_or in Hin. destruct Hin as [Hin|Hin].
      * apply Hself. exact Hin.
      * apply (Hp p Hin).
  - rewrite <- (map_id nc) at 1. apply map_ext_in. intros op Hop.
    symmetry. apply (Hp op Hop).
Qed.

(** C2: [checkForCellCellConnections] keeps at most one connection per
    unordered pair of cells and none from a cell to itself: every pair it
    proposes is unconnected, made of two different cells, and proposed once;
    so running the proximity test again (here twice in a row) never creates
    a second connection for a connected pair. *)
Theorem checkForCellCellConnections_no_duplicate (w : World) (g g' : list (list (list nat)))
  (Hinv : noDuplicateConnections w) :
  (forall op, In op (newConnectionsOf sqrt fuzzyEqual roundN w g) ->
     areConnected w (fst op) (snd op) = false /\ fst op <> snd op) /\
  NoDup (newConnectionsOf sqrt fuzzyEqual roundN w g) /\
  noDuplicateConnections
    (checkForCellCellConnections sqrt fuzzyEqual roundN getAdhesionWith ADH_THRESHOLD
       MAX_CELL_ADH_LENGTH MIN_CELL_ADH_LENGTH w g) /\
  noDuplicateConnections
    (checkForCellCellConnections sqrt fuzzyEqual roundN getAdhesionWith ADH_THRESHOLD
       MAX_CELL_ADH_LENGTH MIN_CELL_ADH_LENGTH
       (checkForCellCellConnections sqrt fuzzyEqual roundN getAdhesionWith ADH_THRESHOLD
          MAX_CELL_ADH_LENGTH MIN_CELL_ADH_LENGTH w g) g').
Proof.
  destruct (scan_invariant w (gridPairs g) [] (NoDup_nil _) (fun op H => match H with end))
    as [Hnc Hp].
  split; [|split; [exact Hnc|split]].
  - intros op Hop. destruct (Hp op Hop) as [H1 [H2 _]]. auto.
  - apply checkForCellCellConnections_preserves. exact Hinv.
  - apply checkForCellCellConnections_preserves.
    apply checkForCellCellConnections_preserves. exact Hinv.
Qed.

End CheckClaims.

Lemma checkForCellCellConnections_no_duplicate_witness :
  noDuplicateConnections w_two /\
  noDuplicateConnections
    (checkForCellCellConnections sqrtQ Qeq_bool (fun x => x) (fun _ _ => 0) 1 1 1
       (checkForCellCellConnections sqrtQ Qeq_bool (fun x => x) (fun _ _ => 0) 1 1 1
          (w_dist (3 # 2)) [[[0; 1]%nat]]) [[[0; 1]%nat]]).
Proof.
  assert (H : noDuplicateConnections w_two).
  { split; simpl.
    - repeat constructor; simpl; intuition discriminate.
    - intros p [<-|[<-|[]]]; simpl; discriminate. }
  split; [exact H|].
  assert (H' : noDuplicateConnections (w_dist (3 # 2))).
  { split; simpl; [constructor|intros p []]. }
  exact (proj2 (proj2 (proj2 (checkForCellCellConnections_no_duplicate sqrtQ Qeq_bool
           (fun x => x) (fun _ _ => 0) 1 1 1 (w_dist (3 # 2)) [[[0; 1]%nat]] [[[0; 1]%nat]] H')))).
Defined.

(** ** Adhesion-dependent rest length *)

Section LengthClaims.

Variable ADH_THRESHOLD MAX_CELL_ADH_LENGTH MIN_CELL_ADH_LENGTH : Q.

Local Abbreviation gCL :=
  (getConnectionLength ADH_THRESHOLD MAX_CELL_ADH_LENGTH MIN_CELL_ADH_LENGTH).

(** C6: [getConnectionLength l adh] is [l] when [adh] does not exceed
    [ADH_THRESHOLD], and [mix (MAX_CELL_ADH_LENGTH * l) (MIN_CELL_ADH_LENGTH * l) adh]
    otherwise; for a threshold in [[0, 1)], [getConnectionLength 2 0 = 2]
    and [getConnectionLength 2 1 = MIN_CELL_ADH_LENGTH * 2]. *)
Theorem getConnectionLength_threshold (l adh : Q) :
  (adh <= ADH_THRESHOLD -> gCL l adh = l) /\
  (ADH_THRESHOLD < adh ->
     gCL l adh = mix (MAX_CELL_ADH_LENGTH * l) (MIN_CELL_ADH_LENGTH * l) adh) /\
  (0 <= ADH_THRESHOLD -> ADH_THRESHOLD < 1 ->
     gCL 2 0 = 2 /\ gCL 2 1 == MIN_CELL_ADH_LENGTH * 2).
Proof.
  unfold getConnectionLength. split; [|split].
  - intros H. destruct (Qlt_le_dec ADH_THRESHOLD adh) as [H'|H']; [|reflexivity].
    exfalso. apply (Qle_not_lt _ _ H H').
  - intros H. destruct (Qlt_le_dec ADH_THRESHOLD adh) as [H'|H']; [reflexivity|].
    exfalso. apply (Qle_not_lt _ _ H' H).
  - intros H0 H1. split.
    + destruct (Qlt_le_dec ADH_THRESHOLD 0) as [H'|H']; [|reflexivity].
      exfalso. apply (Qle_not_lt _ _ H0 H').
    + destruct (Qlt_le_dec ADH_THRESHOLD 1) as [H'|H']; [unfold mix; ring|].
      exfalso. apply (Qle_not_lt _ _ H' H1).
Qed.

End LengthClaims.

Lemma getConnectionLength_threshold_witness :
  getConnectionLength (1 # 10) 2 (1 # 2) 2 0 = 2 /\
  getConnectionLength (1 # 10) 2 (1 # 2) 2 1 == (1 # 2) * 2.
Proof.
  apply (proj2 (proj2 (getConnectionLength_threshold (1 # 10) 2 (1 # 2) 2 0)));
    vm_compute; [intro H; discriminate H|reflexivity].
Defined.

(** ** The distance pre-test of [checkForCellCellConnections] *)

Section DistanceClaims.

Variable sqrt : Q -> Q.
Variable fuzzyEqual : Q -> Q -> bool.
Variable roundN : Q -> Q.
Variable getAdhesionWith : nat -> nat -> Q.
Variable ADH_THRESHOLD MAX_CELL_ADH_LENGTH MIN_CELL_ADH_LENGTH : Q.

Local Abbreviation check :=
  (checkForCellCellConnections sqrt fuzzyEqual roundN getAdhesionWith ADH_THRESHOLD
     MAX_CELL_ADH_LENGTH MIN_CELL_ADH_LENGTH).

(** The cheap test on the ordered pair [op]. *)
Local Abbreviation cheap w op :=
  (Qle_bool (sqlength (roundNV roundN (Vsub (pos w (fst op)) (pos w (snd op)))))
            ((cR w (fst op) + cR w (snd op)) ^ 2) = true).

Lemma make_ordered_cell_pair_sym a b :
  make_ordered_cell_pair a b = make_ordered_cell_pair b a.
Proof.
  unfold make_ordered_cell_pair.
  destruct (Nat.leb a b) eqn:E1, (Nat.leb b a) eqn:E2; try reflexivity.
  - apply Nat.leb_le in E1, E2. assert (a = b) by lia. subst. reflexivity.
  - apply Nat.leb_gt in E1, E2. lia.
Qed.

Lemma pairTest_cheap w nc op :
  pairTest sqrt fuzzyEqual roundN w nc op = true -> cheap w op.
Proof.
  unfold pairTest, preciseStage.
  destruct (Qle_bool _ _) eqn:E; intros H; [reflexivity|discriminate].
Qed.

Lemma scan_cheap w : forall ps nc,
  (forall op, In op nc -> cheap w op) ->
  forall op, In op (fold_left (scan_step sqrt fuzzyEqual roundN w) ps nc) -> cheap w op.
Proof.
  induction ps as [|p ps IH]; intros nc Hnc; simpl; [exact Hnc|].
  apply IH. unfold scan_step.
  destruct (pairTest sqrt fuzzyEqual roundN w nc _) eqn:Ht; [|exact Hnc].
  intros op Hop. apply in_app_or in Hop. destruct Hop as [Hop|[<-|[]]]; [auto|].
  exact (pairTest_cheap _ _ _ Ht).
Qed.

Lemma connected_nodes w a b :
  areConnected w a b = true ->
  exists x y, In (x, y) (nodePairs w) /\ ((x = a /\ y = b) \/ (x = b /\ y = a)).
Proof.
  unfold areConnected. intros H. apply existsb_exists in H.
  destruct H as [co [Hin Hco]]. exists (node0 co), (node1 co). split.
  - apply in_map_iff. exists co. auto.
  - apply orb_true_iff in Hco.
    destruct Hco as [H|H]; apply andb_true_iff in H; destruct H as [H1 H2];
      apply Nat.eqb_eq in H1, H2; auto.
Qed.

Lemma nodes_connected w a b x y :
  In (x, y) (nodePairs w) -> ((x = a /\ y = b) \/ (x = b /\ y = a)) ->
  areConnected w a b = true.
Proof.
  intros H Hxy. unfold nodePairs in H. apply in_map_iff in H.
  destruct H as [co [Hco Hin]]. injection Hco as Hx Hy. subst.
  apply existsb_exists. exists co. split; [exact Hin|].
  destruct Hxy as [[<- <-]|[<- <-]]; rewrite !Nat.eqb_refl; [reflexivity|apply orb_true_r].
Qed.

(** Above the threshold: never proposed, so never connected. *)
Lemma far_pair_never_connected w g a b :
  (cR w (fst (make_ordered_cell_pair a b)) + cR w (snd (make_ordered_cell_pair a b))) ^ 2
  < sqlength (roundNV roundN (Vsub (pos w (fst (make_ordered_cell_pair a b)))
                                   (pos w (snd (make_ordered_cell_pair a b))))) ->
  areConnected w a b = false ->
  ~ In (make_ordered_cell_pair a b) (newConnectionsOf sqrt fuzzyEqual roundN w g) /\
  areConnected (check w g) a b = false.
Proof.
  intros Hlt Hnc.
  assert (Hnot : ~ In (make_ordered_cell_pair a b) (newConnectionsOf sqrt fuzzyEqual roundN w g)).
  { intros Hin.
    pose proof (scan_cheap w (gridPairs g) [] (fun _ H => match H with end) _ Hin) as Hc.
    apply Qle_bool_iff in Hc. exact (Qle_not_lt _ _ Hc Hlt). }
  split; [exact Hnot|].
  destruct (areConnected (check w g) a b) eqn:E; [exfalso|reflexivity].
  apply connected_nodes in E. destruct E as [x [y [Hin Hxy]]].
  unfold checkForCellCellConnections in Hin. rewrite create_nodePairs in Hin.
  apply in_app_or in Hin. destruct Hin as [Hin|Hin].
  - rewrite (nodes_connected w a b x y Hin Hxy) in Hnc. discriminate.
  - destruct (scan_invariant sqrt fuzzyEqual roundN w (gridPairs g) [] (NoDup_nil _)
                (fun op H => match H with end)) as [_ Hp].
    destruct (Hp _ Hin) as [_ [_ Hord]]. simpl in Hord.
    apply Hnot. replace (make_ordered_cell_pair a b) with (x, y); [exact Hin|].
    rewrite <- Hord.
    destruct Hxy as [[-> ->]|[-> ->]]; [reflexivity|apply make_ordered_cell_pair_sym].
Qed.

(** At the threshold: the cheap test passes and the precise stage is reached. *)
Lemma preciseStage_at_threshold w nc op :
  sqlength (roundNV roundN (Vsub (pos w (fst op)) (pos w (snd op))))
  == (cR w (fst op) + cR w (snd op)) ^ 2 ->
  areConnected w (fst op) (snd op) = false -> ~ In op nc -> fst op <> snd op ->
  preciseStage sqrt roundN w nc op
  = Some (sqrt (sqlength (roundNV roundN (Vsub (pos w (fst op)) (pos w (snd op))))),
          roundNV roundN (Vsub (pos w (fst op)) (pos w (snd op)))).
Proof.
  intros Heq Hc Hn Hs. unfold preciseStage.
  assert (Hle : cheap w op).
  { apply Qle_bool_iff. rewrite Heq. apply Qle_refl. }
  rewrite Hle, Hc.
  assert (Hex : existsb (pair_eqb op) nc = false).
  { destruct (existsb (pair_eqb op) nc) eqn:E; [exfalso|reflexivity].
    apply existsb_exists in E. destruct E as [q [Hq Heqb]].
    apply pair_eqb_true in Heqb. subst q. contradiction. }
  rewrite Hex. apply Nat.eqb_neq in Hs. rewrite Hs. reflexivity.
Qed.

Lemma sq_w_dist (x : Q) :
  (forall u v, u == v -> roundN u == roundN v) -> roundN 0 == 0 -> roundN (- x) == - x ->
  sqlength (roundNV roundN (Vsub (pos (w_dist x) 0) (pos (w_dist x) 1))) == x * x.
Proof.
  intros Hr H0 Hx.
  cbv [sqlength Vdot roundNV Vsub pos w_dist mkCellAt cells position vx vy vz].
  rewrite (Hr (0 - x) (- x)) by ring. rewrite (Hr (0 - 0) 0) by ring.
  rewrite Hx, H0. ring.
Qed.

(** C4: in [checkForCellCellConnections], two unconnected cells whose
    squared (rounded) center distance exceeds the square of the sum of their
    corrected radii are never proposed and never connected; at exactly that
    square, the cheap test passes and the pair reaches the precise test
    (when unconnected, distinct and not yet proposed).  Concretely, for
    cells of corrected radius 1 (and a [roundN] that keeps [0], [-2] and
    [-2.001]): at distance 2 the pair reaches the precise test, at distance
    2.001 it never connects. *)
Theorem checkForCellCellConnections_distance_threshold
  (w : World) (g : list (list (list nat))) (a b : nat) :
  let op := make_ordered_cell_pair a b in
  let sqDistance := sqlength (roundNV roundN (Vsub (pos w (fst op)) (pos w (snd op)))) in
  let sqMaxLength := (cR w (fst op) + cR w (snd op)) ^ 2 in
  (sqMaxLength < sqDistance -> areConnected w a b = false ->
     ~ In op (newConnectionsOf sqrt fuzzyEqual roundN w g) /\
     areConnected (check w g) a b = false) /\
  (sqDistance == sqMaxLength -> forall nc,
     areConnected w (fst op) (snd op) = false -> ~ In op nc -> fst op <> snd op ->
     preciseStage sqrt roundN w nc op
     = Some (sqrt sqDistance, roundNV roundN (Vsub (pos w (fst op)) (pos w (snd op))))) /\
  ((forall u v, u == v -> roundN u == roundN v) -> roundN 0 == 0 -> roundN (- 2) == - 2 ->
   roundN (- (2001 # 1000)) == - (2001 # 1000) ->
     preciseStage sqrt roundN (w_dist 2) [] (0%nat, 1%nat) <> None /\
     forall g', areConnected (check (w_dist (2001 # 1000)) g') 0 1 = false).
Proof.
  cbv zeta. split; [|split].
  - apply far_pair_never_connected.
  - intros Heq nc. apply preciseStage_at_threshold. exact Heq.
  - intros Hr H0 H2 H2001. split.
    + rewrite (preciseStage_at_threshold (w_dist 2) [] (0%nat, 1%nat)).
      * discriminate.
      * rewrite (sq_w_dist 2 Hr H0 H2). reflexivity.
      * reflexivity.
      * intros [].
      * discriminate.
    + intros g'. apply (far_pair_never_connected (w_dist (2001 # 1000)) g' 0 1).
      * change (make_ordered_cell_pair 0 1) with (0%nat, 1%nat). cbn [fst snd].
        rewrite (sq_w_dist (2001 # 1000) Hr H0 H2001). reflexivity.
      * reflexivity.
Qed.

End DistanceClaims.

Lemma checkForCellCellConnections_distance_threshold_witness :
  preciseStage sqrtQ (fun x => x) (w_dist 2) [] (0%nat, 1%nat) <> None /\
  (forall g', areConnected (checkForCellCellConnections sqrtQ Qeq_bool (fun x => x)
                 (fun _ _ => 0) 1 1 1 (w_dist (2001 # 1000)) g') 0 1 = false).
Proof.
  apply (proj2 (proj2 (checkForCellCellConnections_distance_threshold sqrtQ Qeq_bool
           (fun x => x) (fun _ _ => 0) 1 1 1 (w_dist 2) [[[0; 1]%nat]] 0 1)));
    [intros u v H; exact H|reflexivity|reflexivity|reflexivity].
Defined.

(** ** Volume compensation *)

Section VolumeClaims.

Variable sqrt roundN cbrt : Q -> Q.

(** C5 (code bug): [compensateVolumeLoss] is declared to return [double]
    but has no return statement, so no call returns: every call, at every
    cell, flows off the end of the function, which is undefined behaviour.
    [updatePositionsAndOrientations] makes this call at each step when
    [volumeConservation] is set (its default).  In particular the call at
    the isolated cell 0 of [w_third] has no defined outcome, so nothing is
    guaranteed about its [correctedRadius]. *)
Theorem compensateVolumeLoss_never_returns :
  cellConnections w_third 0 = [] /\
  (forall w c, exists st, compensateVolumeLoss sqrt roundN cbrt w c = FlowsOffEnd st) /\
  (forall w c st v, compensateVolumeLoss sqrt roundN cbrt w c <> Returns st v).
Proof.
  split; [reflexivity|split].
  - intros w c. eexists. reflexivity.
  - intros w c st v H. discriminate H.
Qed.

End VolumeClaims.

(** ** Deleting a cell's connections *)

Lemma disconnect_fold (c0 : nat) : forall l w,
  modelCons (fold_left (fun w' c1 => CCCM_disconnect w' c0 c1) l w) = modelCons w /\
  modelConnections (fold_left (fun w' c1 => CCCM_disconnect w' c0 c1) l w)
  = modelConnections w /\
  (forall co, In co (con (fold_left (fun w' c1 => CCCM_disconnect w' c0 c1) l w)) ->
     In co (con w) /\
     forall x, In x l -> ~ ((node0 co = c0 /\ node1 co = x) \/ (node0 co = x /\ node1 co = c0))).
Proof.
  induction l as [|x l IH]; intros w; simpl.
  - split; [reflexivity|split; [reflexivity|]]. intros co H. split; [exact H|intros _ []].
  - destruct (IH (CCCM_disconnect w c0 x)) as [H1 [H2 H3]].
    split; [exact H1|split; [exact H2|]].
    intros co Hin. destruct (H3 co Hin) as [Hw Hl].
    unfold CCCM_disconnect, setCon in Hw. cbn [con] in Hw.
    apply filter_In in Hw. destruct Hw as [Hw Hf].
    split; [exact Hw|]. intros y [<-|Hy]; [|exact (Hl y Hy)].
    intros [[Ha Hb]|[Ha Hb]]; rewrite Ha, Hb, !Nat.eqb_refl in Hf;
      [discriminate Hf|rewrite orb_true_r in Hf; discriminate Hf].
Qed.

(** C7 (as the code has it): [disconnectAndDeleteAllConnections] removes
    every cell-cell connection incident to [c0], but it never touches the
    cell-model connections: the container and the membranes' views are
    unchanged.  At [w_model], cell 0 keeps its connection [mc7] to mesh 0. *)
Theorem disconnectAndDeleteAllConnections_keeps_model_connections (w : World) (c0 : nat) :
  (forall co, In co (con (disconnectAndDeleteAllConnections w c0)) ->
     node0 co <> c0 /\ node1 co <> c0) /\
  modelCons (disconnectAndDeleteAllConnections w c0) = modelCons w /\
  modelConnections (disconnectAndDeleteAllConnections w c0) = modelConnections w /\
  con (disconnectAndDeleteAllConnections w_model 0) = [] /\
  modelCons (disconnectAndDeleteAllConnections w_model 0) = [(0%nat, [(0%nat, [mc7])])] /\
  modelConnections (disconnectAndDeleteAllConnections w_model 0) 0 = [7%nat].
Proof.
  unfold disconnectAndDeleteAllConnections.
  destruct (disconnect_fold c0 (connectedCells w c0) w) as [H1 [H2 H3]].
  split; [|split; [exact H1|split; [exact H2|split; [reflexivity|split; reflexivity]]]].
  intros co Hin. destruct (H3 co Hin) as [Hw Hl].
  assert (Hcc : forall x, In x (connectedCells w c0) ->
            ~ ((node0 co = c0 /\ node1 co = x) \/ (node0 co = x /\ node1 co = c0)))
    by exact Hl.
  assert (Hinc : (node0 co = c0 \/ node1 co = c0) ->
                 In (if Nat.eqb (node0 co) c0 then node1 co else node0 co)
                    (connectedCells w c0)).
  { intros Hn. unfold connectedCells.
    apply (in_map (fun co => if Nat.eqb (node0 co) c0 then node1 co else node0 co)).
    unfold cellConnections.
    apply filter_In. split; [exact Hw|].
    destruct Hn as [-> | ->]; rewrite Nat.eqb_refl; [reflexivity|apply orb_true_r]. }
  split; intros He.
  - apply (Hcc _ (Hinc (or_introl He))). rewrite He, Nat.eqb_refl. left. auto.
  - pose proof (Hinc (or_intror He)) as Hx.
    destruct (Nat.eqb (node0 co) c0) eqn:E.
    + apply Nat.eqb_eq in E. apply (Hcc _ Hx). left. auto.
    + apply (Hcc _ Hx). right. auto.
Qed.

(** ** Divisions by geometric quantities *)

(** C8 (as the code has it): nothing guards the two divisions.  Two
    unconnected cells at the same position pass the cheap test and reach the
    precise stage with [dist = 0], where the code computes [AB / dist] with
    [AB] the zero vector ([0/0] in floating point); and for a cell of radius 0
    the surface is 0 and [computePressure] divides [totalForce] by it. *)
Theorem unguarded_zero_denominators :
  (exists AB, preciseStage sqrtQ (fun x => x) (w_dist 0) [] (0%nat, 1%nat) = Some (0, AB) /\
              sqlength AB == 0) /\
  (forall (roundN : Q -> Q) (p pp : Vec) (cr f : Q),
     surface (mkCell p pp 0 cr f) == 0 /\
     computePressure roundN (mkCell p pp 0 cr f) = roundN (f / surface (mkCell p pp 0 cr f))).
Proof.
  split.
  - exists (mkVec (0 - 0) (0 - 0) (0 - 0)). split; reflexivity.
  - intros roundN p pp cr f. split; [|reflexivity].
    unfold surface. cbn [radius]. ring.
Qed.

(** ** Cell-model collisions *)

(** C9 (as the code has it): the clean-up of empty entries tests whether a
    mesh's cell map is empty before it erases that map's empty cell entries,
    so a mesh whose connections all went dirty in this sweep keeps an entry
    with an empty cell map.  At [w_mesh], with no contact candidate, the
    dirty [mc7] is removed from the container and from cell 0's membrane,
    and mesh 0 remains with no cell entry. *)
Theorem checkForCellModelCollisions_keeps_empty_mesh_entry
  (sqrt : Q -> Q) (MAX_CELL_ADH_LENGTH MIN_CELL_ADH_LENGTH : Q)
  (projectionIntriangle : nat -> nat -> Vec -> bool * Vec)
  (getAdhesionWithModel : nat -> nat -> Q) :
  modelCons (checkForCellModelCollisions sqrt MAX_CELL_ADH_LENGTH MIN_CELL_ADH_LENGTH
               (fun _ _ => []) projectionIntriangle getAdhesionWithModel w_mesh [0%nat])
  = [(0%nat, [])] /\
  modelConnections (checkForCellModelCollisions sqrt MAX_CELL_ADH_LENGTH MIN_CELL_ADH_LENGTH
                      (fun _ _ => []) projectionIntriangle getAdhesionWithModel w_mesh [0%nat]) 0
  = [].
Proof. split; reflexivity. Qed.

(** * Further properties of the membrane code *)

Lemma fold_left_ext {A B} (f g : A -> B -> A) :
  (forall a b, f a b = g a b) -> forall l a, fold_left f l a = fold_left g l a.
Proof. intros H l. induction l as [|x l IH]; intros a; simpl; [reflexivity|rewrite H; apply IH]. Qed.

Lemma fold_left_Qeq {B} (f g : Q -> B -> Q) :
  (forall a a' x, a == a' -> f a x == g a' x) ->
  forall l a a', a == a' -> fold_left f l a == fold_left g l a'.
Proof. intros H l. induction l as [|x l IH]; intros a a' Ha; simpl; [exact Ha|apply IH; auto]. Qed.

Lemma fold_left_grows {B} (f : Q -> B -> Q) :
  forall l, (forall a x, In x l -> a <= f a x) -> forall a, a <= fold_left f l a.
Proof.
  induction l as [|x l IH]; intros H a; simpl; [apply Qle_refl|].
  apply Qle_trans with (f a x); [apply H; left; reflexivity|].
  apply IH. intros a' x' Hx'. apply H. right. exact Hx'.
Qed.

Section QueryExtras.

Variable sqrt : Q -> Q.
Variable fuzzyEqual : Q -> Q -> bool.

(** [getConnectedCell] returns only cells connected to [c] by a connection
    whose normal from [c] faces the query direction. *)
Theorem getConnectedCell_facing_neighbours (w : World) (c : nat) (d : Vec) (o : nat) :
  In o (getConnectedCell sqrt fuzzyEqual w c d) ->
  exists co, In co (cellConnections w c) /\
    o = (if Nat.eqb c (node0 co) then node1 co else node0 co) /\
    Vdot (if Nat.eqb c (node0 co) then Vopp (conDirection sqrt w co) else conDirection sqrt w co)
         d < 0.
Proof.
  unfold getConnectedCell. rewrite gccmd_fold_candidates.
  intros Hin.
  refine (proj2 (cand_fold_bound fuzzyEqual (cR w c)
                   (fun o => exists co, In co (cellConnections w c) /\
                      o = (if Nat.eqb c (node0 co) then node1 co else node0 co) /\
                      Vdot (if Nat.eqb c (node0 co) then Vopp (conDirection sqrt w co)
                            else conDirection sqrt w co) d < 0)
                   _ [] (cR w c) (Qle_refl _) (fun o H => match H with end) _) o Hin).
  intros o' l Hl _. unfold candidates in Hl. apply in_flat_map in Hl.
  destruct Hl as [co [Hco Hl]]. exists co. split; [exact Hco|].
  unfold cand_of in Hl. destruct (Qlt_le_dec _ 0) as [Hd|Hd]; [|destruct Hl].
  destruct Hl as [Hl|[]]. injection Hl as <- _. split; [reflexivity|exact Hd].
Qed.

End QueryExtras.

Lemma getConnectedCell_facing_neighbours_witness :
  In 1%nat (getConnectedCell sqrtQ Qeq_bool w_two 0 ex) /\
  exists co, In co (cellConnections w_two 0) /\
    1%nat = (if Nat.eqb 0 (node0 co) then node1 co else node0 co) /\
    Vdot (if Nat.eqb 0 (node0 co) then Vopp (conDirection sqrtQ w_two co)
          else conDirection sqrtQ w_two co) ex < 0.
Proof.
  assert (H : In 1%nat (getConnectedCell sqrtQ Qeq_bool w_two 0 ex))
    by (vm_compute; left; reflexivity).
  split; [exact H|exact (getConnectedCell_facing_neighbours sqrtQ Qeq_bool w_two 0 ex 1 H)].
Defined.

Section VolumeExtras.

Variable sqrt : Q -> Q.

(** [getCurrentActualVolume] is the sphere volume of [correctedRadius] minus,
    for each connection, the volume [pi h^2 (3R - h) / 3] of the spherical cap
    of height [h = correctedRadius - midpoint]; so when every connection's
    midpoint lies in [[0, correctedRadius]] it never exceeds the sphere
    volume. *)
Theorem getCurrentActualVolume_caps (w : World) (c : nat) :
  let R := correctedRadius (cells w c) in
  let mid co := conLength sqrt w co * radius (cells w c)
                / (radius (cells w c)
                   + rad w (if Nat.eqb c (node0 co) then node1 co else node0 co)) in
  getCurrentActualVolume sqrt w c ==
    (4 # 3) * M_PI * R * R * R
    - fold_left (fun acc co => acc + M_PI * (R - mid co) * (R - mid co)
                                     * (3 * R - (R - mid co)) / 3)
                (cellConnections w c) 0 /\
  ((forall co, In co (cellConnections w c) -> 0 <= mid co <= R) ->
   getCurrentActualVolume sqrt w c <= (4 # 3) * M_PI * R * R * R).
Proof.
  cbv zeta. unfold getCurrentActualVolume. cbv zeta. split.
  - unfold Qminus. apply Qplus_comp; [reflexivity|]. apply Qopp_comp.
    apply fold_left_Qeq; [|reflexivity].
    intros a a' co Ha. rewrite Ha.
    generalize (conLength sqrt w co * radius (cells w c)
                / (radius (cells w c)
                   + rad w (if Nat.eqb c (node0 co) then node1 co else node0 co))).
    intros m. field.
  - intros Hmid.
    match goal with |- _ - ?F <= _ => assert (HF : 0 <= F) end.
    { apply fold_left_grows. intros a co Hco. destruct (Hmid co Hco) as [Hm0 HmR].
      match goal with |- _ <= _ + ?X => assert (HX : 0 <= X); [|lra] end.
      assert (Hpi : 0 < M_PI) by reflexivity.
      revert Hpi Hm0 HmR.
      generalize (conLength sqrt w co * radius (cells w c)
                  / (radius (cells w c)
                     + rad w (if Nat.eqb c (node0 co) then node1 co else node0 co))).
      generalize (correctedRadius (cells w c)). generalize M_PI.
      intros p R m Hp Hm0 HmR.
      apply Qmult_le_0_compat; [|nra].
      apply Qle_shift_div_l; [reflexivity|]. nra. }
    lra.
Qed.

End VolumeExtras.

Lemma getCurrentActualVolume_caps_witness :
  getCurrentActualVolume sqrtQ w_model 0
  <= (4 # 3) * M_PI * correctedRadius (cells w_model 0) * correctedRadius (cells w_model 0)
     * correctedRadius (cells w_model 0).
Proof.
  apply (proj2 (getCurrentActualVolume_caps sqrtQ w_model 0)).
  intros co [<-|[]]. split; vm_compute; intro H; discriminate H.
Defined.

(** [setVolume v] followed by [getVolume] gives back [v] (for a cube root
    that is exact on [v / (4 pi / 3)]), with [correctedRadius = radius]. *)
Theorem setVolume_getVolume (cbrt : Q -> Q) (cell : Cell) (v : Q)
  (Hc : cbrt (v / (4 * M_PI / 3)) * cbrt (v / (4 * M_PI / 3)) * cbrt (v / (4 * M_PI / 3))
        == v / (4 * M_PI / 3)) :
  getVolume (setVolume cbrt cell v) == v /\
  correctedRadius (setVolume cbrt cell v) = radius (setVolume cbrt cell v).
Proof.
  unfold getVolume, setVolume, setRadius. cbn [radius correctedRadius].
  split; [|reflexivity].
  set (r := cbrt (v / (4 * M_PI / 3))) in *.
  transitivity ((4 # 3) * M_PI * (r * r * r)); [ring|].
  rewrite Hc. field. unfold M_PI. intro H. discriminate H.
Qed.

Lemma setVolume_getVolume_witness :
  getVolume (setVolume cbrtQ (mkCellAt 0 1 1) (8 * (4 * M_PI / 3))) == 8 * (4 * M_PI / 3) /\
  correctedRadius (setVolume cbrtQ (mkCellAt 0 1 1) (8 * (4 * M_PI / 3)))
  = radius (setVolume cbrtQ (mkCellAt 0 1 1) (8 * (4 * M_PI / 3))).
Proof.
  apply setVolume_getVolume. vm_compute. reflexivity.
Defined.

(** [removeModelConnection] removes every occurrence of the connection and
    keeps the others; after [addModelConnection] of a connection the list
    did not hold, it gives the list back. *)
Theorem removeModelConnection_addModelConnection (l : list nat) (x : nat) :
  ~ In x (removeModelConnection l x) /\
  (forall y, y <> x -> (In y (removeModelConnection l x) <-> In y l)) /\
  (~ In x l -> removeModelConnection (addModelConnection l x) x = l).
Proof.
  unfold removeModelConnection, addModelConnection. split; [|split].
  - intros H. apply filter_In in H. destruct H as [_ H].
    rewrite Nat.eqb_refl in H. discriminate H.
  - intros y Hy. rewrite filter_In. apply Nat.eqb_neq in Hy. rewrite Hy. tauto.
  - intros Hx. rewrite filter_app. simpl. rewrite Nat.eqb_refl, app_nil_r.
    induction l as [|z l IH]; [reflexivity|]. simpl.
    destruct (Nat.eqb z x) eqn:E.
    + apply Nat.eqb_eq in E. subst. exfalso. apply Hx. left. reflexivity.
    + simpl. rewrite IH; [reflexivity|]. intros H. apply Hx. right. exact H.
Qed.

Lemma removeModelConnection_addModelConnection_witness :
  removeModelConnection (addModelConnection [1; 2]%nat 7) 7 = [1; 2]%nat.
Proof.
  apply (proj2 (proj2 (removeModelConnection_addModelConnection [1; 2]%nat 7))).
  simpl. intuition discriminate.
Defined.

Section LengthExtras.

Variable ADH_THRESHOLD MAX_CELL_ADH_LENGTH MIN_CELL_ADH_LENGTH : Q.

Local Abbreviation gCL :=
  (getConnectionLength ADH_THRESHOLD MAX_CELL_ADH_LENGTH MIN_CELL_ADH_LENGTH).

(** Above the threshold, for [0 <= l] and [MIN_CELL_ADH_LENGTH <= MAX_CELL_ADH_LENGTH],
    the rest length lies between [MIN_CELL_ADH_LENGTH * l] and
    [MAX_CELL_ADH_LENGTH * l] (for an adhesion in [[0, 1]]) and does not grow
    when the adhesion grows. *)
Theorem getConnectionLength_bounds (l a b : Q)
  (Hl : 0 <= l) (Hm : MIN_CELL_ADH_LENGTH <= MAX_CELL_ADH_LENGTH) :
  (ADH_THRESHOLD < a -> 0 <= a <= 1 ->
     MIN_CELL_ADH_LENGTH * l
     <= getConnectionLength ADH_THRESHOLD MAX_CELL_ADH_LENGTH MIN_CELL_ADH_LENGTH l a
     <= MAX_CELL_ADH_LENGTH * l) /\
  (ADH_THRESHOLD < a -> a <= b ->
     getConnectionLength ADH_THRESHOLD MAX_CELL_ADH_LENGTH MIN_CELL_ADH_LENGTH l b
     <= getConnectionLength ADH_THRESHOLD MAX_CELL_ADH_LENGTH MIN_CELL_ADH_LENGTH l a).
Proof.
  assert (Hd : 0 <= (MAX_CELL_ADH_LENGTH - MIN_CELL_ADH_LENGTH) * l)
    by (apply Qmult_le_0_compat; lra).
  unfold getConnectionLength. split.
  - intros Ha [H0 H1]. destruct (Qlt_le_dec ADH_THRESHOLD a) as [_|H]; [|exfalso; lra].
    unfold mix. split; nra.
  - intros Ha Hab. destruct (Qlt_le_dec ADH_THRESHOLD a) as [_|H]; [|exfalso; lra].
    destruct (Qlt_le_dec ADH_THRESHOLD b) as [_|H]; [|exfalso; lra].
    unfold mix. nra.
Qed.

Lemma getConnectionLength_compat (l l' a a' : Q) :
  l == l' -> a == a' -> gCL l a == gCL l' a'.
Proof.
  intros Hl Ha. unfold getConnectionLength.
  destruct (Qlt_le_dec ADH_THRESHOLD a) as [H1|H1], (Qlt_le_dec ADH_THRESHOLD a') as [H2|H2].
  - unfold mix. rewrite Hl, Ha. reflexivity.
  - exfalso. rewrite Ha in H1. apply (Qle_not_lt _ _ H2 H1).
  - exfalso. rewrite <- Ha in H2. apply (Qle_not_lt _ _ H1 H2).
  - exact Hl.
Qed.

(** The rest length of a new connection does not depend on the order of the
    two cells. *)
Theorem getConnectionLength_cells_sym (getAdhesionWith : nat -> nat -> Q)
  (w : World) (c0 c1 : nat) :
  getConnectionLength_cells getAdhesionWith ADH_THRESHOLD MAX_CELL_ADH_LENGTH
    MIN_CELL_ADH_LENGTH w c0 c1
  == getConnectionLength_cells getAdhesionWith ADH_THRESHOLD MAX_CELL_ADH_LENGTH
       MIN_CELL_ADH_LENGTH w c1 c0.
Proof.
  unfold getConnectionLength_cells. apply getConnectionLength_compat.
  - apply Qplus_comm.
  - apply Q.min_comm.
Qed.

End LengthExtras.

Lemma getConnectionLength_bounds_witness :
  (1 # 2) * 2 <= getConnectionLength (1 # 10) 2 (1 # 2) 2 (1 # 2) <= 2 * 2.
Proof.
  apply (proj1 (getConnectionLength_bounds (1 # 10) 2 (1 # 2) 2 (1 # 2) 1
                  ltac:(vm_compute; intro H; discriminate H)
                  ltac:(vm_compute; intro H; discriminate H)));
    [reflexivity|split; vm_compute; intro H; discriminate H].
Defined.

Section ModelExtras.

Variable sqrt : Q -> Q.

Lemma updateAnchor_fields (cell : Cell) (cur : Vec) (mc : ModelConnection) :
  mcid (updateAnchor sqrt cell cur mc) = mcid mc /\
  dirty (updateAnchor sqrt cell cur mc) = dirty mc /\
  bounceNode0 (updateAnchor sqrt cell cur mc) = bounceNode0 mc /\
  bounceFace (updateAnchor sqrt cell cur mc) = bounceFace mc /\
  bounceRestLength (updateAnchor sqrt cell cur mc) = bounceRestLength mc.
Proof.
  unfold updateAnchor.
  destruct (Qlt_le_dec 0 _); [destruct (Qlt_le_dec _ _)|]; repeat split.
Qed.

(** The anchor update only moves the anchor point, and moves it to a point
    whose offset from the cell center is orthogonal to the current contact
    direction (the anchor stays at cell height). *)
Theorem updateAnchor_keeps_height (cell : Cell) (cur : Vec) (mc : ModelConnection) :
  updateAnchor sqrt cell cur mc = mc \/
  exists p, updateAnchor sqrt cell cur mc
            = mkMC (mcid mc) (dirty mc) (bounceNode0 mc) (bounceFace mc) (bounceRestLength mc)
                   p (anchorLength mc) (anchorDirection mc) /\
            Vdot (Vsub p (position cell)) cur == 0.
Proof.
  unfold updateAnchor.
  destruct (Qlt_le_dec 0 _); [destruct (Qlt_le_dec _ _)|]; [right|left; reflexivity|left; reflexivity].
  eexists. split; [reflexivity|].
  unfold Vdot, Vsub, Vadd, Vscale, normalized, Vdiv, Vcross. cbn [vx vy vz].
  unfold Qdiv. ring.
Qed.

End ModelExtras.


Section SimilarExtras.

Variable sqrt : Q -> Q.

Local Abbreviation similar cell cur m :=
  (MIN_MODEL_CONNECTION_SIMILARITY
   < Vdot (normalized sqrt (Vsub (bounceNode0 m) (prevposition cell))) cur).

(** The loop over the existing connections of a (mesh, cell) key updates
    the first connection whose direction is similar, in place: the same
    connections with the same identifiers in the same order, the updated one
    no longer dirty, its bounce point moved to the projection on the new
    face, its rest length kept.  When none is similar, nothing is updated. *)
Theorem updateFirstSimilar_in_place (cell : Cell) (proj : Vec) (face : nat) (cur : Vec)
  (v : list ModelConnection) :
  (forall v', updateFirstSimilar sqrt cell proj face cur v = Some v' ->
     map mcid v' = map mcid v /\
     exists pre mc mc' post,
       v = pre ++ mc :: post /\ v' = pre ++ mc' :: post /\
       similar cell cur mc /\ (forall m, In m pre -> ~ similar cell cur m) /\
       mcid mc' = mcid mc /\ dirty mc' = false /\ bounceNode0 mc' = proj /\
       bounceFace mc' = face /\ bounceRestLength mc' = bounceRestLength mc) /\
  (updateFirstSimilar sqrt cell proj face cur v = None ->
     forall m, In m v -> ~ similar cell cur m).
Proof.
  induction v as [|mc r [IH1 IH2]]; simpl.
  - split; [discriminate|intros _ m []].
  - destruct (Qlt_le_dec MIN_MODEL_CONNECTION_SIMILARITY _) as [Hs|Hs].
    + split; [|discriminate].
      intros v' Hv. injection Hv as <-.
      destruct (updateAnchor_fields sqrt cell cur
                  (mkMC (mcid mc) false proj face (bounceRestLength mc)
                        (anchorNode0 mc) (anchorLength mc) (anchorDirection mc)))
        as [H1 [H2 [H3 [H4 H5]]]].
      split; [simpl; rewrite H1; reflexivity|].
      eexists [], mc, _, r. split; [reflexivity|split; [reflexivity|]].
      split; [exact Hs|split; [intros m []|]]. auto.
    + destruct (updateFirstSimilar sqrt cell proj face cur r) as [l|] eqn:E; simpl.
      * split; [|discriminate].
        intros v' Hv. injection Hv as <-.
        destruct (IH1 l eq_refl) as [Hm [pre [m0 [m' [post [Hr [Hl [Hsim [Hpre Hrest]]]]]]]]].
        split; [simpl; rewrite Hm; reflexivity|].
        exists (mc :: pre), m0, m', post. rewrite Hr, Hl.
        split; [reflexivity|split; [reflexivity|split; [exact Hsim|split; [|exact Hrest]]]].
        intros m [<-|Hin]; [apply Qle_not_lt; exact Hs|exact (Hpre m Hin)].
      * split; [discriminate|].
        intros _ m [<-|Hin]; [apply Qle_not_lt; exact Hs|exact (IH2 eq_refl m Hin)].
Qed.

End SimilarExtras.

Lemma updateFirstSimilar_in_place_witness :
  exists v', updateFirstSimilar sqrtQ (mkCellAt 0 1 1) (mkVec (1 # 2) 0 0) 3 ex
               [mkMC 7 true ex 0 1 Vzero 0 Vzero] = Some v' /\ map mcid v' = [7%nat].
Proof.
  pose proof (proj1 (updateFirstSimilar_in_place sqrtQ (mkCellAt 0 1 1) (mkVec (1 # 2) 0 0)
                       3 ex [mkMC 7 true ex 0 1 Vzero 0 Vzero])) as H.
  destruct (updateFirstSimilar sqrtQ (mkCellAt 0 1 1) (mkVec (1 # 2) 0 0) 3 ex
              [mkMC 7 true ex 0 1 Vzero 0 Vzero]) as [v'|] eqn:E.
  - exists v'. split; [reflexivity|]. exact (proj1 (H v' eq_refl)).
  - vm_compute in E. discriminate E.
Defined.

(** ** The clean-up of [checkForCellModelCollisions] *)

Lemma removeDirty_inner_fst : forall cs mv,
  fst (fold_right (fun cp acc' =>
        let '(cs, mv0) := acc' in
        let gone := map mcid (filter dirty (snd cp)) in
        ((fst cp, filter (fun mc => negb (dirty mc)) (snd cp)) :: cs,
         fun c' => if Nat.eqb c' (fst cp)
                   then filter (fun id => negb (existsb (Nat.eqb id) gone)) (mv0 c')
                   else mv0 c'))
        ([], mv) cs)
  = map (fun cp => (fst cp, filter (fun mc => negb (dirty mc)) (snd cp))) cs.
Proof.
  induction cs as [|cp cs IH]; intros mv; [reflexivity|]. simpl.
  specialize (IH mv). destruct (fold_right _ _ cs) as [cs' mv']. simpl in *.
  rewrite IH. reflexivity.
Qed.

Lemma removeDirty_inner_snd : forall cs mv c id,
  In id (snd (fold_right (fun cp acc' =>
        let '(cs, mv0) := acc' in
        let gone := map mcid (filter dirty (snd cp)) in
        ((fst cp, filter (fun mc => negb (dirty mc)) (snd cp)) :: cs,
         fun c' => if Nat.eqb c' (fst cp)
                   then filter (fun id => negb (existsb (Nat.eqb id) gone)) (mv0 c')
                   else mv0 c'))
        ([], mv) cs) c)
  <-> In id (mv c) /\
      ~ In id (flat_map (fun cp => if Nat.eqb (fst cp) c
                                   then map mcid (filter dirty (snd cp)) else []) cs).
Proof.
  induction cs as [|cp cs IH]; intros mv c id; simpl; [tauto|].
  specialize (IH mv c id). destruct (fold_right _ _ cs) as [cs' mv']. simpl in *.
  rewrite in_app_iff.
  destruct (Nat.eqb c (fst cp)) eqn:E.
  - apply Nat.eqb_eq in E. subst c. rewrite Nat.eqb_refl.
    rewrite filter_In, IH, negb_true_iff, existsb_eqb_false. tauto.
  - destruct (Nat.eqb (fst cp) c) eqn:E'.
    + apply Nat.eqb_eq in E'. subst c. rewrite Nat.eqb_refl in E. discriminate.
    + simpl. rewrite IH. tauto.
Qed.

Lemma removeDirty_fst (cmc : CellModelConnectionContainer) mv :
  fst (removeDirty cmc mv)
  = map (fun mp => (fst mp, map (fun cp => (fst cp, filter (fun mc => negb (dirty mc)) (snd cp)))
                               (snd mp))) cmc.
Proof.
  unfold removeDirty. induction cmc as [|mp cmc IH]; [reflexivity|]. simpl.
  destruct (fold_right _ _ cmc) as [rest mv'] eqn:E. simpl in IH.
  rewrite <- removeDirty_inner_fst with (mv := mv').
  destruct (fold_right _ ([], mv') (snd mp)) as [cs' mv'']. simpl. rewrite IH. reflexivity.
Qed.

Lemma removeDirty_snd (cmc : CellModelConnectionContainer) mv c id :
  In id (snd (removeDirty cmc mv) c)
  <-> In id (mv c) /\ ~ In id (connIdsOf dirty cmc c).
Proof.
  unfold removeDirty, connIdsOf. revert c id.
  induction cmc as [|mp cmc IH]; intros c id; simpl; [tauto|].
  destruct (fold_right _ _ cmc) as [rest mv'] eqn:E. simpl in IH.
  pose proof (removeDirty_inner_snd (snd mp) mv' c id) as Hi.
  destruct (fold_right _ ([], mv') (snd mp)) as [cs' mv'']. simpl in *.
  rewrite Hi, IH, in_app_iff. tauto.
Qed.

Lemma cleanupEmpty_In (cmc : CellModelConnectionContainer) m cs :
  In (m, cs) (cleanupEmpty cmc) ->
  exists cs0, In (m, cs0) cmc /\
    cs = filter (fun cp => match snd cp with [] => false | _ => true end) cs0.
Proof.
  unfold cleanupEmpty. intros H. apply in_flat_map in H. destruct H as [[m0 cs0] [Hin H]].
  simpl in H. destruct cs0 as [|cp cs0]; [destruct H|].
  destruct H as [H|[]]. injection H as <- <-. eexists. split; [exact Hin|reflexivity].
Qed.

Lemma fold_left_const {A B} (l : list B) (a : A) : fold_left (fun a _ => a) l a = a.
Proof. revert a. induction l as [|x l IH]; intros a; [reflexivity|apply IH]. Qed.

Lemma filter_undirty_marked (v : list ModelConnection) :
  filter (fun mc => negb (dirty mc)) (map (setDirty true) v) = [].
Proof. induction v as [|x v IH]; [reflexivity|exact IH]. Qed.

Lemma ids_dirty_marked (v : list ModelConnection) :
  map mcid (filter dirty (map (setDirty true) v)) = map mcid (filter (fun _ => true) v).
Proof. induction v as [|x v IH]; [reflexivity|simpl; rewrite IH; reflexivity]. Qed.

Lemma flat_map_map {A B C} (f : B -> list C) (g : A -> B) (l : list A) :
  flat_map f (map g l) = flat_map (fun x => f (g x)) l.
Proof. induction l as [|x l IH]; [reflexivity|simpl; rewrite IH; reflexivity]. Qed.

Section CollisionExtras.

Variable sqrt : Q -> Q.
Variable MAX_CELL_ADH_LENGTH MIN_CELL_ADH_LENGTH : Q.
Variable projectionIntriangle : nat -> nat -> Vec -> bool * Vec.
Variable getAdhesionWithModel : nat -> nat -> Q.

(** After a sweep of [checkForCellModelCollisions], no connection of the
    container is dirty and no cell entry is empty. *)
Theorem checkForCellModelCollisions_clean (retrieve : Vec -> Q -> list (nat * nat))
  (w : World) (cellsList : list nat) :
  forall m cs, In (m, cs) (modelCons (checkForCellModelCollisions sqrt MAX_CELL_ADH_LENGTH
                   MIN_CELL_ADH_LENGTH retrieve projectionIntriangle getAdhesionWithModel
                   w cellsList)) ->
  forall c v, In (c, v) cs -> v <> [] /\ forall mc, In mc v -> dirty mc = false.
Proof.
  unfold checkForCellModelCollisions.
  destruct (fold_left _ cellsList _) as [[cmc1 mv1] nid1].
  destruct (removeDirty cmc1 mv1) as [cmc2 mv2] eqn:E. cbn [modelCons].
  assert (Hc : cmc2 = fst (removeDirty cmc1 mv1)) by (rewrite E; reflexivity).
  rewrite removeDirty_fst in Hc. subst cmc2.
  intros m cs H c v Hv. apply cleanupEmpty_In in H. destruct H as [cs0 [Hin ->]].
  apply filter_In in Hv. destruct Hv as [Hv Hne].
  apply in_map_iff in Hin. destruct Hin as [mp [Hmp _]]. injection Hmp as _ <-.
  apply in_map_iff in Hv. destruct Hv as [cp [Hcp _]]. injection Hcp as _ <-.
  cbn [snd] in Hne. split.
  - intros Hnil. rewrite Hnil in Hne. discriminate Hne.
  - intros mc Hmc. apply filter_In in Hmc. destruct Hmc as [_ Hd].
    destruct (dirty mc); [discriminate Hd|reflexivity].
Qed.

(** A sweep in which no cell has a contact candidate removes every
    cell-model connection: each remaining mesh entry has no cell entry, and
    each membrane's view loses exactly the identifiers of that cell's
    connections. *)
Theorem checkForCellModelCollisions_no_contact (w : World) (cellsList : list nat) :
  let w' := checkForCellModelCollisions sqrt MAX_CELL_ADH_LENGTH MIN_CELL_ADH_LENGTH
              (fun _ _ => []) projectionIntriangle getAdhesionWithModel w cellsList in
  (forall m cs, In (m, cs) (modelCons w') -> cs = []) /\
  (forall c id, In id (modelConnections w' c)
                <-> In id (modelConnections w c) /\
                    ~ In id (connIdsOf (fun _ => true) (modelCons w) c)).
Proof.
  cbv zeta. unfold checkForCellModelCollisions.
  rewrite (fold_left_ext _ (fun st _ => st)) by reflexivity.
  rewrite fold_left_const.
  set (marked := map (fun mp => (fst mp, map (fun cp => (fst cp, map (setDirty true) (snd cp)))
                                          (snd mp))) (modelCons w)).
  destruct (removeDirty marked (modelConnections w)) as [cmc2 mv2] eqn:E.
  assert (Hc : cmc2 = fst (removeDirty marked (modelConnections w))) by (rewrite E; reflexivity).
  assert (Hv : mv2 = snd (removeDirty marked (modelConnections w))) by (rewrite E; reflexivity).
  cbn [modelCons modelConnections]. split.
  - intros m cs H. apply cleanupEmpty_In in H. destruct H as [cs0 [Hin ->]].
    rewrite Hc, removeDirty_fst in Hin. unfold marked in Hin. rewrite map_map in Hin.
    apply in_map_iff in Hin. destruct Hin as [mp [Hmp _]]. injection Hmp as _ <-.
    cbn [snd]. rewrite map_map.
    induction (snd mp) as [|cp cs IH]; [reflexivity|].
    simpl. rewrite filter_undirty_marked. exact IH.
  - intros c id. rewrite Hv, removeDirty_snd.
    replace (connIdsOf dirty marked c) with (connIdsOf (fun _ => true) (modelCons w) c);
      [reflexivity|].
    unfold connIdsOf, marked. rewrite flat_map_map. apply flat_map_ext. intros mp.
    cbn [snd]. rewrite flat_map_map. apply flat_map_ext. intros cp. cbn [fst snd].
    destruct (Nat.eqb (fst cp) c); [|reflexivity]. symmetry. apply ids_dirty_marked.
Qed.

End CollisionExtras.

(** At [w_mesh], with a contact candidate on face 0 of mesh 0, the sweep
    leaves cell 0 one clean connection to the mesh. *)
Lemma checkForCellModelCollisions_clean_witness :
  let mc0 := mkMC 0 false Vzero 0 1 Vzero 0 Vzero in
  let cmc := modelCons (checkForCellModelCollisions sqrtQ 1 1 (fun _ _ => [(0%nat, 0%nat)])
                          (fun _ _ _ => (true, Vzero)) (fun _ _ => 1) w_mesh [0%nat]) in
  (In (0%nat, [(0%nat, [mc0])]) cmc /\ In (0%nat, [mc0]) [(0%nat, [mc0])]) /\
  ([mc0] <> [] /\ forall mc, In mc [mc0] -> dirty mc = false).
Proof.
  cbv zeta. split.
  - split; [vm_compute; left; reflexivity|left; reflexivity].
  - refine (checkForCellModelCollisions_clean sqrtQ 1 1 (fun _ _ _ => (true, Vzero)) (fun _ _ => 1)
             (fun _ _ => [(0%nat, 0%nat)]) w_mesh [0%nat] 0%nat
             [(0%nat, [mkMC 0 false Vzero 0 1 Vzero 0 Vzero])] _ 0%nat
             [mkMC 0 false Vzero 0 1 Vzero 0 Vzero] _).
    + vm_compute. left. reflexivity.
    + left. reflexivity.
Defined.

(** ** Cell-cell connection bookkeeping *)

Lemma disconnect_fold_filter (c0 : nat) : forall l w,
  con (fold_left (fun w' c1 => CCCM_disconnect w' c0 c1) l w)
  = filter (fun co => negb (existsb (fun x => (Nat.eqb (node0 co) c0 && Nat.eqb (node1 co) x)
                                              || (Nat.eqb (node0 co) x && Nat.eqb (node1 co) c0))
                                    l)) (con w).
Proof.
  induction l as [|x l IH]; intros w; simpl.
  - induction (con w) as [|co cs IHc]; [reflexivity|simpl; rewrite <- IHc; reflexivity].
  - rewrite IH. unfold CCCM_disconnect, setCon. cbn [con].
    rewrite filter_filter_and. apply filter_ext. intros co. rewrite !negb_orb. reflexivity.
Qed.

(** [disconnectAndDeleteAllConnections c0] removes exactly the connections
    incident to [c0]: every other connection is kept, in order. *)
Theorem disconnectAndDeleteAllConnections_con (w : World) (c0 : nat) :
  con (disconnectAndDeleteAllConnections w c0)
  = filter (fun co => negb (Nat.eqb (node0 co) c0 || Nat.eqb (node1 co) c0)) (con w).
Proof.
  unfold disconnectAndDeleteAllConnections. rewrite disconnect_fold_filter.
  apply filter_ext_in. intros co Hco. f_equal.
  assert (Hcc : forall x, (Nat.eqb (node0 co) c0 = true \/ Nat.eqb (node1 co) c0 = true) ->
            x = (if Nat.eqb (node0 co) c0 then node1 co else node0 co) ->
            In x (connectedCells w c0)).
  { intros x Hn ->. unfold connectedCells.
    apply (in_map (fun co => if Nat.eqb (node0 co) c0 then node1 co else node0 co)).
    unfold cellConnections. apply filter_In. split; [exact Hco|].
    destruct Hn as [H|H]; rewrite H; [reflexivity|apply orb_true_r]. }
  destruct (Nat.eqb (node0 co) c0) eqn:E0; [|destruct (Nat.eqb (node1 co) c0) eqn:E1].
  - apply existsb_exists. exists (node1 co). split.
    + apply Hcc; [left|]; reflexivity.
    + rewrite Nat.eqb_refl. reflexivity.
  - apply existsb_exists. exists (node0 co). split.
    + apply Hcc; [right|]; reflexivity.
    + rewrite Nat.eqb_refl. apply orb_true_r.
  - apply not_true_iff_false. intros H. apply existsb_exists in H.
    destruct H as [x [_ H]]. rewrite andb_false_r in H. discriminate H.
Qed.

Lemma pairs_In : forall l x y, In (x, y) (pairs l) -> In x l /\ In y l.
Proof.
  induction l as [|z l IH]; intros x y H; simpl in H; [destruct H|].
  apply in_app_or in H. destruct H as [H|H].
  - apply in_map_iff in H. destruct H as [y' [Hy Hin]]. injection Hy as <- <-.
    split; [left; reflexivity|right; exact Hin].
  - destruct (IH x y H). split; right; assumption.
Qed.

Section GridExtras.

Variable sqrt : Q -> Q.
Variable fuzzyEqual : Q -> Q -> bool.
Variable roundN : Q -> Q.
Variable getAdhesionWith : nat -> nat -> Q.
Variable ADH_THRESHOLD MAX_CELL_ADH_LENGTH MIN_CELL_ADH_LENGTH : Q.

Lemma create_con_prefix : forall nc w,
  exists added,
    con (fold_left (fun w' p => createConnection roundN getAdhesionWith ADH_THRESHOLD
                                  MAX_CELL_ADH_LENGTH MIN_CELL_ADH_LENGTH w' (fst p) (snd p))
                   nc w) = con w ++ added /\
    map (fun co => (node0 co, node1 co)) added = nc.
Proof.
  induction nc as [|p nc IH]; intros w; simpl.
  - exists []. split; [symmetry; apply app_nil_r|reflexivity].
  - destruct (IH (createConnection roundN getAdhesionWith ADH_THRESHOLD MAX_CELL_ADH_LENGTH
                    MIN_CELL_ADH_LENGTH w (fst p) (snd p))) as [added [Hc Hm]].
    rewrite Hc. unfold createConnection, CCCM_createConnection. cbn [con].
    eexists (_ :: added). split; [rewrite <- app_assoc; reflexivity|].
    simpl. rewrite Hm. destruct p. reflexivity.
Qed.

Lemma scan_origin w : forall ps nc op,
  In op (fold_left (scan_step sqrt fuzzyEqual roundN w) ps nc) ->
  In op nc \/ exists p, In p ps /\ op = make_ordered_cell_pair (fst p) (snd p).
Proof.
  induction ps as [|p ps IH]; intros nc op H; simpl in H; [left; exact H|].
  destruct (IH _ _ H) as [H'|[p' [Hp' ->]]].
  - unfold scan_step in H'. destruct (pairTest _ _ _ _ _ _); [|left; exact H'].
    apply in_app_or in H'. destruct H' as [H'|[<-|[]]]; [left; exact H'|].
    right. exists p. split; [left|]; reflexivity.
  - right. exists p'. split; [right; exact Hp'|reflexivity].
Qed.

(** [checkForCellCellConnections] only appends: existing connections are
    kept, unchanged and in order; each new connection joins, lower cell
    first, two different cells that were not connected and that the grid
    lists together in one of its cells. *)
Theorem checkForCellCellConnections_appends (w : World) (g : list (list (list nat))) :
  exists added,
    con (checkForCellCellConnections sqrt fuzzyEqual roundN getAdhesionWith ADH_THRESHOLD
           MAX_CELL_ADH_LENGTH MIN_CELL_ADH_LENGTH w g) = con w ++ added /\
    forall co, In co added ->
      (node0 co < node1 co)%nat /\ areConnected w (node0 co) (node1 co) = false /\
      exists batch cl, In batch g /\ In cl batch /\ In (node0 co) cl /\ In (node1 co) cl.
Proof.
  unfold checkForCellCellConnections.
  destruct (create_con_prefix (newConnectionsOf sqrt fuzzyEqual roundN w g) w)
    as [added [Hc Hm]].
  exists added. split; [exact Hc|]. intros co Hco.
  assert (Hin : In (node0 co, node1 co) (newConnectionsOf sqrt fuzzyEqual roundN w g)).
  { rewrite <- Hm. apply (in_map (fun co => (node0 co, node1 co))). exact Hco. }
  destruct (scan_invariant sqrt fuzzyEqual roundN w (gridPairs g) [] (NoDup_nil _)
              (fun op H => match H with end)) as [_ Hp].
  destruct (Hp _ Hin) as [Hconn [Hne Hord]]. cbn [fst snd] in Hconn, Hne, Hord.
  split; [|split; [exact Hconn|]].
  - unfold make_ordered_cell_pair in Hord.
    destruct (Nat.leb (node0 co) (node1 co)) eqn:E.
    + apply Nat.leb_le in E. lia.
    + injection Hord as H1 H2. lia.
  - destruct (scan_origin w (gridPairs g) [] _ Hin) as [[]|[[x y] [Hxy Hop]]].
    unfold gridPairs in Hxy. apply in_flat_map in Hxy. destruct Hxy as [batch [Hb Hxy]].
    apply in_flat_map in Hxy. destruct Hxy as [cl [Hcl Hxy]].
    destruct (pairs_In cl x y Hxy) as [Hx Hy].
    exists batch, cl. split; [exact Hb|split; [exact Hcl|]].
    unfold make_ordered_cell_pair in Hop. cbn [fst snd] in Hop.
    destruct (Nat.leb x y); injection Hop as -> ->; auto.
Qed.

End GridExtras.
